(** * Generalized Deutsch-Jozsa: the circuit builders of [Circuit.py]

    The Python module builds gate sequences through the circuit object of
    the quantum library ([qc.x], [qc.h], [qc.mcx], [qc.compose],
    [qc.measure]) and hands the finished circuit to a simulator backend.

    - Part 1 embeds the three functions of [Circuit.py] over a circuit
      record that stores the appended instructions in order.
    - Part 2 gives the gates their meaning on a dense amplitude vector, as
      section 4.2 of the specification describes the gate engine, and the
      measurement and sampling of section 4.4.
    - Part 3 holds the lemmas and the theorems about the claims. *)

From Stdlib Require Import ZArith List Bool Lia String Ascii QArith.
Import ListNotations.
Open Scope Z_scope.

(* ================================================================= *)
(** ** Part 1: Python values, exceptions and the circuit object *)

(** Exceptions that can leave the functions of the module.  [Raised] is an
    exception thrown by the caller's function [f]; its payload identifies
    it, so that "propagated unchanged" can be stated. *)
Inductive PyExn : Type :=
| TypeError
| CircuitError
| ShotCountInvalid
| Raised (payload : Z).

(** A Python call either raises or returns. *)
Definition result (A : Type) : Type := (PyExn + A)%type.

Definition ret {A : Type} (a : A) : result A := inr a.
Definition raise {A : Type} (e : PyExn) : result A := inl e.

Definition bind {A B : Type} (m : result A) (k : A -> result B) : result B :=
  match m with
  | inl e => inl e
  | inr a => k a
  end.

Notation "x <- m ;; k" := (bind m (fun x => k))
  (at level 61, m at next level, right associativity).

(** [range(k)] for an integer [k]: [0, 1, ..., k-1], empty when [k <= 0]. *)
Definition range (k : Z) : list Z := map Z.of_nat (seq 0 (Z.to_nat k)).

(** [range(2 ** n)].  For a negative [n], [2 ** n] is a float and [range]
    raises [TypeError]. *)
Definition range_pow2 (n : Z) : result (list Z) :=
  if n <? 0 then raise TypeError else ret (range (2 ^ n)).

(** One instruction of a circuit. *)
Inductive Gate : Type :=
| HGate (q : Z)
| XGate (q : Z)
| MCXGate (controls : list Z) (target : Z)
| Measure (qubits clbits : list Z).

(** The circuit object: register sizes and the instructions appended so
    far, oldest first. *)
Record QuantumCircuit : Type := mkCircuit {
  num_qubits : Z;
  num_clbits : Z;
  data : list Gate
}.

(** [QuantumCircuit(nq, nc)]: the library refuses a negative register
    size. *)
Definition new_circuit (nq nc : Z) : result QuantumCircuit :=
  if (nq <? 0) || (nc <? 0) then raise CircuitError
  else ret (mkCircuit nq nc []).

Definition append (qc : QuantumCircuit) (g : Gate) : QuantumCircuit :=
  mkCircuit (num_qubits qc) (num_clbits qc) (data qc ++ [g]).

Definition qc_x (qc : QuantumCircuit) (q : Z) := append qc (XGate q).
Definition qc_h (qc : QuantumCircuit) (q : Z) := append qc (HGate q).

(** [qc.mcx(controls, target)]: the library refuses a controlled gate
    without control qubits. *)
Definition qc_mcx (qc : QuantumCircuit) (controls : list Z) (target : Z)
  : result QuantumCircuit :=
  match controls with
  | [] => raise CircuitError
  | _ :: _ => ret (append qc (MCXGate controls target))
  end.

(** [qc.measure(qubits, clbits)] with lists of equal length: the
    measurements of the listed pairs are kept as one instruction; for
    empty lists nothing is appended. *)
Definition qc_measure (qc : QuantumCircuit) (qubits clbits : list Z) :=
  match qubits with
  | [] => qc
  | _ :: _ => append qc (Measure qubits clbits)
  end.

(** [qc.compose(other, qubits, inplace=True)]: qubit [i] of [other] is
    wired to [qubits[i]] of [qc], and the instructions of [other] are
    appended in order.  The library refuses an [other] with more qubits
    or more classical bits than [qc], and a [qubits] list whose length is
    not the number of qubits of [other]. *)
Definition wire (qubits : list Z) (q : Z) : Z := nth (Z.to_nat q) qubits q.

Definition rewire (qubits : list Z) (g : Gate) : Gate :=
  match g with
  | HGate q => HGate (wire qubits q)
  | XGate q => XGate (wire qubits q)
  | MCXGate cs t => MCXGate (map (wire qubits) cs) (wire qubits t)
  | Measure qs cs => Measure (map (wire qubits) qs) cs
  end.

Definition qc_compose (qc other : QuantumCircuit) (qubits : list Z)
  : result QuantumCircuit :=
  if (num_qubits qc <? num_qubits other)
     || (num_clbits qc <? num_clbits other)
     || negb (Z.of_nat (List.length qubits) =? num_qubits other)
  then raise CircuitError
  else ret (mkCircuit (num_qubits qc) (num_clbits qc)
                      (data qc ++ map (rewire qubits) (data other))).

(* ----------------------------------------------------------------- *)
(** *** [build_oracle_from_function] *)

(** The two inner loops of the source are the same loop:
    [for i in range(n): if ((x >> i) & 1) == 0: qc.x(i)]. *)
Definition encode_pattern (n x : Z) (qc : QuantumCircuit) : QuantumCircuit :=
  fold_left
    (fun qc i => if Z.land (Z.shiftr x i) 1 =? 0 then qc_x qc i else qc)
    (range n) qc.

(** Body of [if f(x) % 2 == 1]: encode, multi-controlled X, uncompute. *)
Definition oracle_term (n x : Z) (qc : QuantumCircuit)
  : result QuantumCircuit :=
  let qc1 := encode_pattern n x qc in
  qc2 <- qc_mcx qc1 (range n) n ;;
  ret (encode_pattern n x qc2).

(** The outer loop [for x in range(2 ** n)], over the values still to be
    visited.  A call of [f] or of the circuit object that raises ends the
    loop with that exception. *)
Fixpoint oracle_loop (f : Z -> result Z) (n : Z) (xs : list Z)
         (qc : QuantumCircuit) : result QuantumCircuit :=
  match xs with
  | [] => ret qc
  | x :: rest =>
      v <- f x ;;
      qc1 <- (if v mod 2 =? 1 then oracle_term n x qc else ret qc) ;;
      oracle_loop f n rest qc1
  end.

Definition build_oracle_from_function (f : Z -> result Z) (n : Z)
  : result QuantumCircuit :=
  qc <- new_circuit (n + 1) 0 ;;
  xs <- range_pow2 n ;;
  oracle_loop f n xs qc.

(** A Python function that never raises. *)
Definition total (g : Z -> Z) : Z -> result Z := fun x => ret (g x).

(* ----------------------------------------------------------------- *)
(** *** [deutsch_jozsa_circuit] *)

Definition deutsch_jozsa_circuit (oracle : QuantumCircuit)
  : result QuantumCircuit :=
  let n_plus_1 := num_qubits oracle in
  let n := n_plus_1 - 1 in
  qc <- new_circuit n_plus_1 n ;;
  let qc := qc_x qc n in
  let qc := fold_left qc_h (range n_plus_1) qc in
  qc <- qc_compose qc oracle (range n_plus_1) ;;
  let qc := fold_left qc_h (range n) qc in
  ret (qc_measure qc (range n) (range n)).

(* ----------------------------------------------------------------- *)
(** *** [run_deutsch_jozsa] *)

(** Measurement counts: bitstring and number of occurrences. *)
Definition Counts : Type := list (string * Z).

(** [execute(circuit, backend=backend, shots=shots)] followed by
    [result().get_counts()], for a backend given by the caller. *)
Definition Backend : Type := QuantumCircuit -> Z -> result Counts.

Definition run_deutsch_jozsa (backend : Backend) (f : Z -> result Z)
           (n : Z) (shots : Z) : result Counts :=
  oracle <- build_oracle_from_function f n ;;
  dj_circuit <- deutsch_jozsa_circuit oracle ;;
  backend dj_circuit shots.

(* ================================================================= *)
(** ** Part 2: the statevector simulator behind the backend *)

(** Modelled from the spec: the quantum state of section 3 and 4.1.  The
    simulator is the library's, not the module's; the specification gives
    it as a dense amplitude vector of length [2 ^ qubit_count], indexed by
    the integer whose bit [q] is the value of qubit [q].

    The gate set is {H, X, multi-controlled X}: X and multi-controlled X
    permute amplitudes and H replaces a pair [(a0, a1)] by
    [((a0 + a1) / sqrt 2, (a0 - a1) / sqrt 2)].  Every amplitude reachable
    from the all-zero basis state is therefore an integer divided by
    [sqrt 2 ^ k], where [k] counts the Hadamard gates applied so far.  The
    record keeps the integer numerators and [k], so the state is exact and
    probabilities are rationals [a * a / 2 ^ k]. *)
Record Statevector : Type := mkState {
  qubit_count : Z;
  hadamards : nat;
  amplitudes : list Z
}.

Definition tabulate (N : Z) (g : Z -> Z) : list Z := map g (range (2 ^ N)).

(** Numerator of the amplitude of basis state [i]; [0] outside the
    vector. *)
Definition amplitude_at (s : Statevector) (i : Z) : Z :=
  if i <? 0 then 0 else nth (Z.to_nat i) (amplitudes s) 0.

(** Modelled from the spec: [initialize(qubit_count)], amplitude 1 at
    index 0. *)
Definition initialize (N : Z) : Statevector :=
  mkState N 0 (tabulate N (fun i => if i =? 0 then 1 else 0)).

(** Basis index [i] with bit [q] flipped. *)
Definition flip (i q : Z) : Z := Z.lxor i (2 ^ q).

(** Modelled from the spec: the gate engine of section 4.2.  A
    measurement leaves the amplitudes as they are; its outcome
    distribution is read off the final state below. *)
Definition apply_gate (g : Gate) (s : Statevector) : Statevector :=
  let N := qubit_count s in
  let k := hadamards s in
  match g with
  | HGate q =>
      mkState N (S k)
        (tabulate N (fun i =>
           if Z.testbit i q
           then amplitude_at s (flip i q) - amplitude_at s i
           else amplitude_at s i + amplitude_at s (flip i q)))
  | XGate q =>
      mkState N k (tabulate N (fun i => amplitude_at s (flip i q)))
  | MCXGate cs t =>
      mkState N k
        (tabulate N (fun i =>
           if forallb (Z.testbit i) cs
           then amplitude_at s (flip i t)
           else amplitude_at s i))
  | Measure _ _ => s
  end.

Definition run_gates (gs : list Gate) (s : Statevector) : Statevector :=
  fold_left (fun s g => apply_gate g s) gs s.

(** Final state of a circuit started in the all-zero basis state. *)
Definition final_state (qc : QuantumCircuit) : Statevector :=
  run_gates (data qc) (initialize (num_qubits qc)).

(** Pairs (qubit, classical bit) of the measurements of a circuit. *)
Definition measured (gs : list Gate) : list (Z * Z) :=
  flat_map (fun g => match g with
                     | Measure qs cs => combine qs cs
                     | _ => []
                     end) gs.

(** Value of the classical register when the qubits are found in basis
    state [i]. *)
Definition register_value (pairs : list (Z * Z)) (i : Z) : Z :=
  fold_right (fun qc acc =>
                Z.lor acc (if Z.testbit i (fst qc) then 2 ^ snd qc else 0))
             0 pairs.

Definition sumZ (l : list Z) : Z := fold_right Z.add 0 l.

(** Modelled from the spec: the measurement semantics of section 4.4.  The
    probability of register value [b] is the sum of the squared
    amplitudes of the basis states that show [b] on the measured qubits
    (the other qubits are traced out). *)
Definition outcome_weight (pairs : list (Z * Z)) (s : Statevector) (b : Z)
  : Z :=
  sumZ (map (fun i => if register_value pairs i =? b
                      then amplitude_at s i * amplitude_at s i else 0)
            (range (2 ^ qubit_count s))).

Definition outcome_probability (qc : QuantumCircuit) (b : Z) : Q :=
  let s := final_state qc in
  Qmake (outcome_weight (measured (data qc)) s b)
        (Z.to_pos (2 ^ Z.of_nat (hadamards s))).

(** Sum of the squared amplitudes, as a rational. *)
Definition norm_squared (s : Statevector) : Q :=
  Qmake (sumZ (map (fun a => a * a) (amplitudes s)))
        (Z.to_pos (2 ^ Z.of_nat (hadamards s))).

(** Modelled from the spec: one draw from the categorical distribution of
    section 4.4 by a uniform number [u] in [0, 1): the first outcome whose
    cumulative probability exceeds [u]; the last outcome closes the
    list. *)
Fixpoint pick (p : Z -> Q) (outcomes : list Z) (u : Q) : Z :=
  match outcomes with
  | [] => 0
  | [b] => b
  | b :: rest => if Qle_bool (p b) u then pick p rest (u - p b)%Q else b
  end.

(** Key of an outcome in the counts: one character per classical bit, the
    highest bit first. *)
Definition bitstring (m : Z) (b : Z) : string :=
  fold_left (fun acc k => String (if Z.testbit b k then "1" else "0")%char acc)
            (range m) EmptyString.

(** The bitstring of [n] characters 0. *)
Definition all_zero (n : Z) : string :=
  Nat.iter (Z.to_nat n) (String "0"%char) EmptyString.

Fixpoint count_one (key : string) (c : list (string * Z)) : list (string * Z) :=
  match c with
  | [] => [(key, 1)]
  | (k, v) :: rest =>
      if String.eqb k key then (k, v + 1) :: rest
      else (k, v) :: count_one key rest
  end.

Definition get_counts (outcomes : list string) : Counts :=
  fold_left (fun c k => count_one k c) outcomes [].

(** Sampled outcomes of [shots] draws; draw [j] uses the uniform number
    [rng j]. *)
Definition sample (rng : nat -> Q) (qc : QuantumCircuit) (shots : Z)
  : list string :=
  map (fun j => bitstring (num_clbits qc)
                  (pick (outcome_probability qc)
                        (range (2 ^ num_clbits qc)) (rng j)))
      (seq 0 (Z.to_nat shots)).

(** Modelled from the spec: the run interface of section 6 and the error
    taxonomy of section 7.  A shot count that is not positive is refused;
    otherwise the circuit is simulated once and sampled [shots] times. *)
Definition simulator (rng : nat -> Q) : Backend :=
  fun qc shots =>
    if shots <=? 0 then raise ShotCountInvalid
    else ret (get_counts (sample rng qc shots)).

(** A source of uniform numbers for the examples: 0, 1/7, ..., 6/7 in
    turn. *)
Definition sevenths (j : nat) : Q := Z.of_nat (j mod 7) # 7.

(** A function that is 1 on two of the eight inputs of three bits. *)
Definition two_of_eight (x : Z) : Z := x / 6.

(** [f_constant] of the demonstration. *)
Definition f_constant (x : Z) : Z := 0.

(** [f_balanced] of the demonstration, [bin(x).count("1") % 2]: for
    [x >= 0] the digits of [bin(x)] are the bits [0 .. log2 x] of [x]. *)
Definition parity (x : Z) : Z :=
  Z.of_nat (List.length (filter (Z.testbit x) (range (Z.log2 x + 1)))) mod 2.

(* ----------------------------------------------------------------- *)
(** *** Notions used to state the properties *)

(** The gates one run of the inner loop appends for the pattern [x]. *)
Definition encode_gates (n x : Z) : list Gate :=
  map XGate (filter (fun i => Z.land (Z.shiftr x i) 1 =? 0) (range n)).

(** The gates one term of the oracle appends. *)
Definition term_gates (n x : Z) : list Gate :=
  encode_gates n x ++ [MCXGate (range n) n] ++ encode_gates n x.

(** The gates the outer loop appends for a function that never raises. *)
Definition oracle_gates (g : Z -> Z) (n : Z) (xs : list Z) : list Gate :=
  flat_map (fun x => if g x mod 2 =? 1 then term_gates n x else []) xs.

(** A gate names qubits of an [N]-qubit register; the target of a
    controlled gate is not one of its controls. *)
Definition wf_gate (N : Z) (g : Gate) : Prop :=
  match g with
  | HGate q => 0 <= q < N
  | XGate q => 0 <= q < N
  | MCXGate cs t =>
      0 <= t < N /\ Forall (fun c => 0 <= c < N) cs /\ ~ In t cs
  | Measure qs cs => Forall (fun q => 0 <= q < N) qs
  end.

Definition wf_circuit (qc : QuantumCircuit) : Prop :=
  Forall (wf_gate (num_qubits qc)) (data qc).

(** X and multi-controlled X are the classical reversible gates. *)
Definition classical_gate (g : Gate) : Prop :=
  match g with
  | XGate _ | MCXGate _ _ => True
  | _ => False
  end.

(** Action of a gate on the index of a basis state. *)
Definition perm (g : Gate) (i : Z) : Z :=
  match g with
  | XGate q => flip i q
  | MCXGate cs t => if forallb (Z.testbit i) cs then flip i t else i
  | _ => i
  end.

(** Action of a gate sequence on a basis index, first gate first. *)
Definition classical (gs : list Gate) (i : Z) : Z :=
  fold_left (fun i g => perm g i) gs i.

(** The same with the last gate first. *)
Definition pullback (gs : list Gate) (i : Z) : Z :=
  fold_right perm i gs.

(** The basis state [|idx>] of an [N]-qubit register. *)
Definition basis_state (N idx : Z) : Statevector :=
  mkState N 0 (tabulate N (fun i => if i =? idx then 1 else 0)).

(** Index of [|x>|y>]: input register [x] on qubits [0..n-1], ancilla [y]
    on qubit [n]. *)
Definition index_of (n x y : Z) : Z := x + 2 ^ n * y.

(** [+1] where the ancilla bit is 0 and [-1] where it is 1. *)
Definition sign (n i : Z) : Z := if Z.testbit i n then -1 else 1.

(** Bit [j] is flipped by the encoding of [x] when [j] is an input qubit
    and bit [j] of [x] is 0. *)
Definition flipped (n x j : Z) : bool :=
  (0 <=? j) && (j <? n) && negb (Z.testbit x j).

(** [-1] where [g] is odd, [+1] where it is even: the sign the oracle
    gives the amplitudes of input [x]. *)
Definition phase (g : Z -> Z) (x : Z) : Z := if g x mod 2 =? 1 then -1 else 1.

(** Sum of the phases over all inputs of [n] bits. *)
Definition phase_sum (g : Z -> Z) (n : Z) : Z :=
  sumZ (map (phase g) (range (2 ^ n))).

(** The inputs of [n] bits on which [g] is odd. *)
Definition odd_inputs (g : Z -> Z) (n : Z) : list Z :=
  filter (fun x => g x mod 2 =? 1) (range (2 ^ n)).

(** [g] is odd on exactly half of the inputs of [n] bits. *)
Definition balanced (g : Z -> Z) (n : Z) : Prop :=
  2 * Z.of_nat (List.length (odd_inputs g n)) = 2 ^ n.

(** The input qubits on which the pattern [x] has a 0. *)
Definition zero_bits (n x : Z) : list Z :=
  filter (fun i => negb (Z.testbit x i)) (range n).

Definition is_mcx (g : Gate) : bool :=
  match g with
  | MCXGate _ _ => true
  | _ => false
  end.

(** The circuit [deutsch_jozsa_circuit] returns for an oracle with gate
    list [gs] on [n + 1] qubits. *)
Definition dj_layout (n : Z) (gs : list Gate) : QuantumCircuit :=
  mkCircuit (n + 1) n
    ([XGate n] ++ map HGate (range (n + 1)) ++ gs
     ++ map HGate (range n) ++ [Measure (range n) (range n)]).

(** The value a call of [f] returned; 0 stands in where it raised. *)
Definition value_of (f : Z -> result Z) (x : Z) : Z :=
  match f x with
  | inr v => v
  | inl _ => 0
  end.

(** Whether a bitstring holds the character 1. *)
Fixpoint has_one (s : string) : bool :=
  match s with
  | EmptyString => false
  | String c rest => Ascii.eqb c "1"%char || has_one rest
  end.

(* ================================================================= *)
(** ** Part 3: lemmas *)

(** *** Ranges *)

Lemma range_length (k : Z) : List.length (range k) = Z.to_nat k.
Proof. unfold range. now rewrite length_map, length_seq. Qed.

Lemma In_range (k x : Z) : In x (range k) <-> 0 <= x < k.
Proof.
  unfold range. rewrite in_map_iff. split.
  - intros [j [<- Hj]]. apply in_seq in Hj. lia.
  - intros Hx. exists (Z.to_nat x). split; [lia|]. apply in_seq. lia.
Qed.

Lemma nth_range (k i d : Z) : 0 <= i < k -> nth (Z.to_nat i) (range k) d = i.
Proof.
  intros Hi. unfold range.
  rewrite nth_indep with (d' := Z.of_nat 0)
    by (rewrite length_map, length_seq; lia).
  rewrite map_nth, seq_nth by lia. lia.
Qed.

Lemma range_succ (k : Z) : 0 <= k -> range (k + 1) = range k ++ [k].
Proof.
  intros Hk. unfold range.
  replace (Z.to_nat (k + 1)) with (S (Z.to_nat k)) by lia.
  rewrite seq_S, map_app. simpl. f_equal. f_equal. lia.
Qed.

Lemma range_nonpos (k : Z) : k <= 0 -> range k = [].
Proof.
  intros Hk. unfold range. now replace (Z.to_nat k) with 0%nat by lia.
Qed.

Lemma seq_from (s len : nat) : seq s len = map (Nat.add s) (seq 0 len).
Proof.
  revert s. induction len as [|m IH]; intros s; [reflexivity|].
  simpl. f_equal; [lia|].
  rewrite (IH (S s)), (IH 1%nat), map_map.
  apply map_ext. intros j. lia.
Qed.

Lemma NoDup_range (k : Z) : NoDup (range k).
Proof.
  unfold range. generalize (seq_NoDup (Z.to_nat k) 0).
  induction (seq 0 (Z.to_nat k)) as [|a l IH]; intros Hnd; simpl.
  - constructor.
  - inversion Hnd as [|? ? Ha Hl]; subst. constructor; [|auto].
    rewrite in_map_iff. intros [b [Hb Hin]].
    apply Nat2Z.inj in Hb. subst. contradiction.
Qed.

Lemma range_app (a b : Z) :
  0 <= a -> 0 <= b -> range (a + b) = range a ++ map (Z.add a) (range b).
Proof.
  intros Ha Hb. unfold range.
  replace (Z.to_nat (a + b)) with (Z.to_nat a + Z.to_nat b)%nat by lia.
  rewrite seq_app, map_app. f_equal. simpl.
  rewrite seq_from, !map_map. apply map_ext. intros j. lia.
Qed.

(** *** Shape of the circuits the builders return *)

Lemma append_data qc g : data (append qc g) = data qc ++ [g].
Proof. reflexivity. Qed.

Lemma encode_pattern_spec (n x : Z) (qc : QuantumCircuit) :
  encode_pattern n x qc =
  mkCircuit (num_qubits qc) (num_clbits qc) (data qc ++ encode_gates n x).
Proof.
  unfold encode_pattern, encode_gates. revert qc.
  induction (range n) as [|i l IH]; intros qc; simpl.
  - rewrite app_nil_r. now destruct qc.
  - rewrite IH. destruct (Z.land (Z.shiftr x i) 1 =? 0); simpl.
    + now rewrite <- app_assoc.
    + reflexivity.
Qed.

Lemma range_cons (n : Z) : 1 <= n -> exists tail, range n = 0 :: tail.
Proof.
  intros Hn. replace n with (1 + (n - 1)) by lia.
  rewrite range_app by lia. change (range 1) with [0]. simpl. eauto.
Qed.

Lemma oracle_term_spec (n x : Z) (qc : QuantumCircuit) :
  1 <= n ->
  oracle_term n x qc =
  inr (mkCircuit (num_qubits qc) (num_clbits qc) (data qc ++ term_gates n x)).
Proof.
  intros Hn. unfold oracle_term, term_gates, qc_mcx.
  destruct (range_cons n Hn) as [tail Hr]. rewrite Hr at 1.
  cbn [bind ret]. unfold append.
  rewrite !encode_pattern_spec. simpl. now rewrite <- !app_assoc.
Qed.

(** Without an input qubit the multi-controlled gate is refused. *)
Lemma oracle_term_no_controls (n x : Z) (qc : QuantumCircuit) :
  n <= 0 -> oracle_term n x qc = inl CircuitError.
Proof.
  intros Hn. unfold oracle_term. now rewrite (range_nonpos n Hn).
Qed.

(** A term that is appended is the term of [term_gates]. *)
Lemma oracle_term_returned (n x : Z) (qc qc1 : QuantumCircuit) :
  oracle_term n x qc = inr qc1 ->
  qc1 = mkCircuit (num_qubits qc) (num_clbits qc) (data qc ++ term_gates n x).
Proof.
  intros Ht. destruct (Z_le_dec 1 n) as [Hn|Hn].
  - rewrite oracle_term_spec in Ht by assumption. now inversion Ht.
  - rewrite oracle_term_no_controls in Ht by lia. discriminate.
Qed.

Lemma oracle_loop_total (g : Z -> Z) (n : Z) (xs : list Z) (qc : QuantumCircuit) :
  1 <= n ->
  oracle_loop (total g) n xs qc =
  inr (mkCircuit (num_qubits qc) (num_clbits qc)
                 (data qc ++ oracle_gates g n xs)).
Proof.
  intros Hn. revert qc. induction xs as [|x xs IH]; intros qc; simpl.
  - rewrite app_nil_r. now destruct qc.
  - destruct (g x mod 2 =? 1).
    + rewrite oracle_term_spec by assumption. cbn [bind].
      rewrite IH. simpl. now rewrite <- app_assoc.
    + cbn [bind ret]. now rewrite IH.
Qed.

Lemma build_oracle_total (g : Z -> Z) (n : Z) :
  1 <= n ->
  build_oracle_from_function (total g) n =
  inr (mkCircuit (n + 1) 0 (oracle_gates g n (range (2 ^ n)))).
Proof.
  intros Hn. unfold build_oracle_from_function, new_circuit, range_pow2.
  replace (n + 1 <? 0) with false by lia.
  replace (n <? 0) with false by lia.
  simpl. now rewrite oracle_loop_total.
Qed.

(** With no input qubit and an odd [f 0] the one term of the loop is
    refused: the multi-controlled gate would have no control. *)
Lemma build_oracle_zero_odd (f : Z -> result Z) (v : Z) :
  f 0 = inr v -> v mod 2 = 1 ->
  build_oracle_from_function f 0 = inl CircuitError.
Proof.
  intros Hf Hv. unfold build_oracle_from_function. simpl.
  rewrite Hf. simpl. rewrite Hv. reflexivity.
Qed.

Lemma oracle_loop_app (f : Z -> result Z) (n : Z) (l1 l2 : list Z)
      (qc : QuantumCircuit) :
  oracle_loop f n (l1 ++ l2) qc =
  (qc1 <- oracle_loop f n l1 qc ;; oracle_loop f n l2 qc1).
Proof.
  revert qc. induction l1 as [|x l1 IH]; intros qc; simpl; [reflexivity|].
  destruct (f x) as [e|v]; simpl; [reflexivity|].
  destruct (if v mod 2 =? 1 then oracle_term n x qc else ret qc) as [e|qc1];
    simpl; [reflexivity|]. apply IH.
Qed.

Lemma oracle_loop_returns (f : Z -> result Z) (n : Z) (l : list Z)
      (qc : QuantumCircuit) :
  1 <= n ->
  (forall y, In y l -> exists v, f y = inr v) ->
  exists qc1, oracle_loop f n l qc = inr qc1.
Proof.
  intros Hn. revert qc. induction l as [|x l IH]; intros qc Hl; simpl.
  - now exists qc.
  - destruct (Hl x (or_introl eq_refl)) as [v ->]. simpl.
    destruct (v mod 2 =? 1).
    + rewrite oracle_term_spec by assumption. cbn [bind].
      apply IH. intros y Hy. apply Hl. now right.
    + cbn [bind ret]. apply IH. intros y Hy. apply Hl. now right.
Qed.

(** Below any bound either [f] returns everywhere or there is a least
    value on which it raises. *)
Lemma first_failure (f : Z -> result Z) (k : Z) :
  0 <= k ->
  (forall y, 0 <= y < k -> exists v, f y = inr v) \/
  (exists x0 e0, 0 <= x0 < k /\ f x0 = inl e0 /\
                 forall y, 0 <= y < x0 -> exists v, f y = inr v).
Proof.
  revert k. apply natlike_ind.
  - left. intros y Hy. lia.
  - intros k Hk [Hall|(x0 & e0 & Hx0 & Hf & Hlow)].
    + destruct (f k) as [e|v] eqn:Hfk.
      * right. exists k, e. repeat split; auto; lia.
      * left. intros y Hy. destruct (Z.eq_dec y k) as [->|Hne]; eauto.
        apply Hall. lia.
    + right. exists x0, e0. repeat split; auto; lia.
Qed.

(** The loop over [range k] stops at the first value on which [f]
    raises. *)
Lemma oracle_loop_raises (f : Z -> result Z) (n k x0 : Z) (e0 : PyExn)
      (qc : QuantumCircuit) :
  1 <= n \/ x0 = 0 ->
  0 <= x0 < k -> f x0 = inl e0 ->
  (forall y, 0 <= y < x0 -> exists v, f y = inr v) ->
  oracle_loop f n (range k) qc = inl e0.
Proof.
  intros Hn Hx0 Hf Hlow.
  replace k with (x0 + (1 + (k - x0 - 1))) by lia.
  rewrite range_app, oracle_loop_app by lia.
  rewrite (range_app 1) by lia.
  assert (Hpre : exists qc1, oracle_loop f n (range x0) qc = inr qc1).
  { destruct Hn as [Hn|Hz].
    - apply oracle_loop_returns; [assumption|].
      intros y Hy. apply Hlow. now apply In_range.
    - rewrite Hz. now exists qc. }
  destruct Hpre as [qc1 ->].
  change (range 1) with [0]. simpl.
  replace (x0 + 0) with x0 by lia. now rewrite Hf.
Qed.

Lemma oracle_loop_mod2 (g : Z -> Z) (n : Z) (xs : list Z) (qc : QuantumCircuit) :
  oracle_loop (total g) n xs qc =
  oracle_loop (total (fun x => g x mod 2)) n xs qc.
Proof.
  revert qc. induction xs as [|x xs IH]; intros qc; simpl; [reflexivity|].
  rewrite Z.mod_mod by lia.
  destruct (if g x mod 2 =? 1 then oracle_term n x qc else ret qc) as [e|qc1];
    simpl; [reflexivity|]. apply IH.
Qed.

Lemma oracle_gates_zero (g : Z -> Z) (n : Z) (xs : list Z) :
  (forall x, In x xs -> g x = 0) -> oracle_gates g n xs = [].
Proof.
  induction xs as [|x xs IH]; intros Hg; simpl; [reflexivity|].
  rewrite (Hg x) by now left. simpl. apply IH. intros y Hy. apply Hg. now right.
Qed.

Lemma fold_qc_h (l : list Z) (qc : QuantumCircuit) :
  fold_left qc_h l qc =
  mkCircuit (num_qubits qc) (num_clbits qc) (data qc ++ map HGate l).
Proof.
  revert qc. induction l as [|q l IH]; intros qc; simpl.
  - rewrite app_nil_r. now destruct qc.
  - rewrite IH. simpl. now rewrite <- app_assoc.
Qed.

Lemma wire_range (N q : Z) : 0 <= q -> wire (range N) q = q.
Proof.
  intros Hq. unfold wire. destruct (Z_lt_dec q N).
  - apply nth_range. lia.
  - apply nth_overflow. rewrite range_length. lia.
Qed.

Lemma map_wire_range (N : Z) (l : list Z) :
  Forall (fun q => 0 <= q < N) l -> map (wire (range N)) l = l.
Proof.
  induction 1 as [|q l Hq _ IH]; simpl; [reflexivity|].
  rewrite wire_range by lia. now rewrite IH.
Qed.

Lemma rewire_range (N : Z) (gs : list Gate) :
  Forall (wf_gate N) gs -> map (rewire (range N)) gs = gs.
Proof.
  induction 1 as [|g gs Hg _ IH]; simpl; [reflexivity|].
  rewrite IH. f_equal.
  destruct g as [q|q|cs t|qs cs]; simpl in *.
  - rewrite wire_range by lia. reflexivity.
  - rewrite wire_range by lia. reflexivity.
  - destruct Hg as (Ht & Hcs & _).
    rewrite wire_range by lia. now rewrite map_wire_range.
  - now rewrite map_wire_range.
Qed.

Lemma qc_measure_range (qc : QuantumCircuit) (n : Z) :
  qc_measure qc (range n) (range n) =
  mkCircuit (num_qubits qc) (num_clbits qc)
            (data qc ++ if n <=? 0 then [] else [Measure (range n) (range n)]).
Proof.
  destruct (Z.leb_spec n 0) as [Hn|Hn].
  - rewrite (range_nonpos n Hn). simpl. rewrite app_nil_r. now destruct qc.
  - destruct (range_cons n ltac:(lia)) as [tail Hr].
    unfold qc_measure. rewrite Hr at 1. reflexivity.
Qed.

Lemma qc_compose_fits (qc other : QuantumCircuit) :
  0 <= num_qubits other ->
  num_qubits other <= num_qubits qc -> num_clbits other <= num_clbits qc ->
  qc_compose qc other (range (num_qubits other)) =
  inr (mkCircuit (num_qubits qc) (num_clbits qc)
                 (data qc ++ map (rewire (range (num_qubits other)))
                                 (data other))).
Proof.
  intros H0 Hq Hc. unfold qc_compose.
  replace (num_qubits qc <? num_qubits other) with false by lia.
  replace (num_clbits qc <? num_clbits other) with false by lia.
  rewrite range_length, Z2Nat.id, Z.eqb_refl by assumption. reflexivity.
Qed.

Lemma qc_compose_too_many_clbits (qc other : QuantumCircuit) (qubits : list Z) :
  num_clbits qc < num_clbits other ->
  qc_compose qc other qubits = inl CircuitError.
Proof.
  intros Hc. unfold qc_compose.
  replace (num_clbits qc <? num_clbits other) with true by lia.
  now rewrite orb_true_r.
Qed.

Lemma deutsch_jozsa_circuit_spec (oracle : QuantumCircuit) (n : Z) :
  0 <= n -> num_qubits oracle = n + 1 -> num_clbits oracle <= n ->
  wf_circuit oracle ->
  deutsch_jozsa_circuit oracle =
  inr (mkCircuit (n + 1) n
         ([XGate n] ++ map HGate (range (n + 1)) ++ data oracle
          ++ map HGate (range n)
          ++ if n <=? 0 then [] else [Measure (range n) (range n)])).
Proof.
  intros Hn Hq Hc Hwf. unfold deutsch_jozsa_circuit, new_circuit.
  replace (num_qubits oracle - 1) with n by lia.
  replace ((num_qubits oracle <? 0) || (n <? 0)) with false
    by (symmetry; apply orb_false_iff; split; lia).
  cbn [bind ret]. rewrite fold_qc_h.
  rewrite qc_compose_fits by (simpl; lia).
  cbn [bind]. rewrite fold_qc_h, qc_measure_range.
  cbn [num_qubits num_clbits data qc_x append].
  unfold wf_circuit in Hwf.
  rewrite rewire_range by assumption.
  rewrite Hq. simpl app. now rewrite <- !app_assoc.
Qed.

(** An oracle that carries more classical bits than it has input qubits
    is refused when it is inserted. *)
Lemma deutsch_jozsa_circuit_refused (oracle : QuantumCircuit) :
  1 <= num_qubits oracle -> num_qubits oracle - 1 < num_clbits oracle ->
  deutsch_jozsa_circuit oracle = inl CircuitError.
Proof.
  intros Hq Hc. unfold deutsch_jozsa_circuit, new_circuit.
  replace ((num_qubits oracle <? 0) || (num_qubits oracle - 1 <? 0)) with false
    by (symmetry; apply orb_false_iff; split; lia).
  cbn [bind ret]. rewrite fold_qc_h.
  now rewrite qc_compose_too_many_clbits by (simpl; lia).
Qed.

Lemma deutsch_jozsa_circuit_layout (oracle : QuantumCircuit) (n : Z) :
  1 <= n -> num_qubits oracle = n + 1 -> num_clbits oracle <= n ->
  wf_circuit oracle ->
  deutsch_jozsa_circuit oracle = inr (dj_layout n (data oracle)).
Proof.
  intros Hn Hq Hc Hwf.
  rewrite (deutsch_jozsa_circuit_spec oracle n) by (auto; lia).
  replace (n <=? 0) with false by lia. reflexivity.
Qed.

(** *** Bits of basis indices *)

Lemma testbit_flip (i q j : Z) :
  0 <= q -> Z.testbit (flip i q) j = xorb (Z.testbit i j) (q =? j).
Proof.
  intros Hq. unfold flip. rewrite Z.lxor_spec, Z.pow2_bits_eqb by lia.
  reflexivity.
Qed.

Lemma flip_involutive (i q : Z) : flip (flip i q) q = i.
Proof.
  unfold flip. now rewrite Z.lxor_assoc, Z.lxor_nilpotent, Z.lxor_0_r.
Qed.

Lemma testbit_high (N i j : Z) :
  0 <= i < 2 ^ N -> N <= j -> Z.testbit i j = false.
Proof.
  intros Hi Hj. destruct (Z_lt_dec N 0) as [HN|HN].
  - rewrite Z.pow_neg_r in Hi by lia. lia.
  - rewrite <- (Z.mod_small i (2 ^ N)) by assumption.
    apply Z.mod_pow2_bits_high. lia.
Qed.

Lemma below_pow2 (N i : Z) :
  0 <= N -> 0 <= i -> (forall j, N <= j -> Z.testbit i j = false) ->
  i < 2 ^ N.
Proof.
  intros HN Hi Hbits.
  destruct (Z.eq_dec i 0) as [->|Hne]; [apply Z.pow_pos_nonneg; lia|].
  apply Z.log2_lt_pow2; [lia|].
  destruct (Z_lt_dec (Z.log2 i) N) as [|Hge]; [assumption|].
  pose proof (Z.bit_log2 i ltac:(lia)) as Hb.
  rewrite Hbits in Hb by lia. discriminate.
Qed.

Lemma flip_range (N i q : Z) :
  0 <= q < N -> 0 <= i < 2 ^ N -> 0 <= flip i q < 2 ^ N.
Proof.
  intros Hq Hi. assert (H0 : 0 <= flip i q).
  { unfold flip. apply Z.lxor_nonneg. split; intros _; [|lia].
    apply Z.pow_nonneg. lia. }
  split; [assumption|]. apply below_pow2; [lia|assumption|].
  intros j Hj. rewrite testbit_flip by lia.
  rewrite (testbit_high N i j) by lia.
  replace (q =? j) with false by lia. reflexivity.
Qed.

(** *** Gates on tabulated amplitude vectors *)

Lemma amplitude_at_tabulate (N : Z) (k : nat) (a : Z -> Z) (i : Z) :
  0 <= i < 2 ^ N -> amplitude_at (mkState N k (tabulate N a)) i = a i.
Proof.
  intros Hi. unfold amplitude_at, tabulate. simpl.
  replace (i <? 0) with false by lia.
  rewrite nth_indep with (d' := a 0)
    by (rewrite length_map, range_length; lia).
  rewrite map_nth, nth_range by lia. reflexivity.
Qed.

Lemma tabulate_ext (N : Z) (a b : Z -> Z) :
  (forall i, 0 <= i < 2 ^ N -> a i = b i) -> tabulate N a = tabulate N b.
Proof.
  intros Hab. unfold tabulate. apply map_ext_in.
  intros i Hi. apply Hab. now apply In_range.
Qed.

Lemma run_gates_app (gs1 gs2 : list Gate) (s : Statevector) :
  run_gates (gs1 ++ gs2) s = run_gates gs2 (run_gates gs1 s).
Proof. unfold run_gates. apply fold_left_app. Qed.

Lemma apply_h_tabulate (N q : Z) (k : nat) (a : Z -> Z) :
  0 <= q < N ->
  apply_gate (HGate q) (mkState N k (tabulate N a)) =
  mkState N (S k)
    (tabulate N (fun i => if Z.testbit i q
                          then a (flip i q) - a i
                          else a i + a (flip i q))).
Proof.
  intros Hq. simpl. f_equal. apply tabulate_ext. intros i Hi.
  rewrite !amplitude_at_tabulate; auto using flip_range.
Qed.

Lemma forallb_testbit_flip (cs : list Z) (i t : Z) :
  0 <= t -> ~ In t cs ->
  forallb (Z.testbit (flip i t)) cs = forallb (Z.testbit i) cs.
Proof.
  intros Ht Hnin. induction cs as [|c cs IH]; simpl; [reflexivity|].
  rewrite IH by (intros Hc; apply Hnin; now right).
  rewrite testbit_flip by lia.
  replace (t =? c) with false.
  - now rewrite xorb_false_r.
  - symmetry. apply Z.eqb_neq. intros ->. apply Hnin. now left.
Qed.

Lemma perm_range (N : Z) (g : Gate) (i : Z) :
  wf_gate N g -> 0 <= i < 2 ^ N -> 0 <= perm g i < 2 ^ N.
Proof.
  intros Hwf Hi. destruct g as [q|q|cs t|qs cs]; simpl in *; auto.
  - now apply flip_range.
  - destruct Hwf as (Ht & _ & _).
    destruct (forallb (Z.testbit i) cs); auto using flip_range.
Qed.

Lemma perm_involutive (N : Z) (g : Gate) (i : Z) :
  wf_gate N g -> perm g (perm g i) = i.
Proof.
  intros Hwf. destruct g as [q|q|cs t|qs cs]; simpl in *; auto.
  - apply flip_involutive.
  - destruct Hwf as (Ht & _ & Hnin).
    destruct (forallb (Z.testbit i) cs) eqn:Hc.
    + rewrite forallb_testbit_flip, Hc by (auto; lia). apply flip_involutive.
    + now rewrite Hc.
Qed.

Lemma apply_classical_tabulate (N : Z) (g : Gate) (k : nat) (a : Z -> Z) :
  classical_gate g -> wf_gate N g ->
  apply_gate g (mkState N k (tabulate N a)) =
  mkState N k (tabulate N (fun i => a (perm g i))).
Proof.
  intros Hc Hwf. destruct g as [q|q|cs t|qs cs]; simpl in *; try contradiction.
  - f_equal. apply tabulate_ext. intros i Hi.
    rewrite amplitude_at_tabulate; auto using flip_range.
  - destruct Hwf as (Ht & _ & _). f_equal. apply tabulate_ext. intros i Hi.
    destruct (forallb (Z.testbit i) cs);
      rewrite amplitude_at_tabulate; auto using flip_range.
Qed.

Lemma pullback_range (N : Z) (gs : list Gate) (i : Z) :
  Forall (wf_gate N) gs -> 0 <= i < 2 ^ N -> 0 <= pullback gs i < 2 ^ N.
Proof.
  intros Hwf Hi. induction Hwf as [|g gs Hg _ IH]; simpl; [assumption|].
  now apply perm_range.
Qed.

Lemma classical_range (N : Z) (gs : list Gate) (i : Z) :
  Forall (wf_gate N) gs -> 0 <= i < 2 ^ N -> 0 <= classical gs i < 2 ^ N.
Proof.
  intros Hwf. revert i. induction Hwf as [|g gs Hg _ IH]; intros i Hi; simpl;
    [assumption|].
  apply IH. now apply perm_range.
Qed.

(** A sequence of classical gates moves each amplitude along the
    permutation of the basis indices. *)
Lemma run_classical_tabulate (N : Z) (gs : list Gate) (k : nat) (a : Z -> Z) :
  Forall classical_gate gs -> Forall (wf_gate N) gs ->
  run_gates gs (mkState N k (tabulate N a)) =
  mkState N k (tabulate N (fun i => a (pullback gs i))).
Proof.
  intros Hc Hwf. revert a.
  induction gs as [|g gs IH]; intros a; simpl; [reflexivity|].
  inversion Hc; inversion Hwf; subst.
  unfold run_gates in *. simpl.
  rewrite apply_classical_tabulate by assumption.
  rewrite IH by assumption. reflexivity.
Qed.

Lemma classical_pullback (N : Z) (gs : list Gate) (i : Z) :
  Forall (wf_gate N) gs -> classical gs (pullback gs i) = i.
Proof.
  intros Hwf. induction Hwf as [|g gs Hg _ IH]; simpl; [reflexivity|].
  unfold classical in *. simpl.
  rewrite (perm_involutive N) by assumption. apply IH.
Qed.

Lemma pullback_classical (N : Z) (gs : list Gate) (i : Z) :
  Forall (wf_gate N) gs -> pullback gs (classical gs i) = i.
Proof.
  intros Hwf. revert i. induction Hwf as [|g gs Hg _ IH]; intros i; simpl;
    [reflexivity|].
  unfold classical in *. simpl. rewrite IH.
  now apply (perm_involutive N).
Qed.

(** On a basis state a classical gate sequence is its action on the
    index. *)
Lemma run_classical_basis (N : Z) (gs : list Gate) (idx : Z) :
  Forall classical_gate gs -> Forall (wf_gate N) gs ->
  run_gates gs (basis_state N idx) = basis_state N (classical gs idx).
Proof.
  intros Hc Hwf. unfold basis_state.
  rewrite run_classical_tabulate by assumption.
  f_equal. apply tabulate_ext. intros i Hi.
  destruct (Z.eqb_spec (pullback gs i) idx) as [He|Hne];
    destruct (Z.eqb_spec i (classical gs idx)) as [He'|Hne']; auto.
  - exfalso. apply Hne'. rewrite <- He. symmetry.
    now apply (classical_pullback N).
  - exfalso. apply Hne. rewrite He'. now apply (pullback_classical N).
Qed.

(** *** The oracle as a permutation of basis indices *)

Lemma pattern_bit (x i : Z) :
  0 <= i -> (Z.land (Z.shiftr x i) 1 =? 0) = negb (Z.testbit x i).
Proof.
  intros Hi. change 1 with (Z.ones 1) at 1.
  rewrite Z.land_ones by lia. change (2 ^ 1) with 2.
  rewrite <- Z.bit0_mod, Z.shiftr_spec by lia. simpl.
  now destruct (Z.testbit x i).
Qed.

Lemma classical_app (gs1 gs2 : list Gate) (i : Z) :
  classical (gs1 ++ gs2) i = classical gs2 (classical gs1 i).
Proof. unfold classical. apply fold_left_app. Qed.

Lemma classical_xgates (l : list Z) :
  Forall (fun q => 0 <= q) l -> NoDup l ->
  forall i j,
    Z.testbit (classical (map XGate l) i) j =
    xorb (Z.testbit i j) (existsb (Z.eqb j) l).
Proof.
  intros Hnn Hnd. induction Hnd as [|q l Hq Hnd IH]; intros i j; simpl.
  - now rewrite xorb_false_r.
  - inversion Hnn as [|? ? Hq0 Hl]; subst.
    unfold classical in *. simpl. rewrite IH by assumption.
    rewrite testbit_flip by lia.
    destruct (Z.eqb_spec j q) as [->|Hne].
    + replace (existsb (Z.eqb q) l) with false.
      * rewrite Z.eqb_refl. simpl. now rewrite xorb_false_r.
      * symmetry. apply not_true_is_false. intros He.
        apply existsb_exists in He. destruct He as [y [Hy Hqy]].
        apply Z.eqb_eq in Hqy. subst. contradiction.
    + replace (q =? j) with false by lia. simpl.
      now rewrite xorb_false_r.
Qed.

Lemma encode_bits (n x i j : Z) :
  Z.testbit (classical (encode_gates n x) i) j =
  xorb (Z.testbit i j) (flipped n x j).
Proof.
  unfold encode_gates.
  rewrite classical_xgates.
  - f_equal. unfold flipped.
    destruct (existsb (Z.eqb j)
                (filter (fun i0 => Z.land (Z.shiftr x i0) 1 =? 0) (range n)))
      eqn:He.
    + apply existsb_exists in He. destruct He as [y [Hy Hjy]].
      apply Z.eqb_eq in Hjy. subst y. apply filter_In in Hy.
      destruct Hy as [Hr Hp]. apply In_range in Hr.
      rewrite pattern_bit in Hp by lia. rewrite Hp.
      symmetry. apply andb_true_iff. split; [|reflexivity].
      apply andb_true_iff. split; lia.
    + symmetry. apply not_true_is_false. intros Hf.
      apply andb_true_iff in Hf. destruct Hf as [Hr Hb].
      apply andb_true_iff in Hr. destruct Hr as [H0 Hn].
      assert (Hex : existsb (Z.eqb j)
                (filter (fun i0 => Z.land (Z.shiftr x i0) 1 =? 0) (range n))
                = true).
      { apply existsb_exists. exists j. split; [|apply Z.eqb_refl].
        apply filter_In. split; [apply In_range; lia|].
        rewrite pattern_bit by lia. assumption. }
      congruence.
  - apply Forall_forall. intros q Hq. apply filter_In in Hq.
    destruct Hq as [Hq _]. apply In_range in Hq. lia.
  - apply NoDup_filter, NoDup_range.
Qed.

Lemma encode_involutive (n x i : Z) :
  classical (encode_gates n x) (classical (encode_gates n x) i) = i.
Proof.
  apply Z.bits_inj'. intros j _. rewrite !encode_bits.
  now rewrite xorb_assoc, xorb_nilpotent, xorb_false_r.
Qed.

(** After the encoding of [x] all input qubits are 1 exactly on the
    indices whose input register is [x]. *)
Lemma controls_after_encode (n x i : Z) :
  0 <= n -> 0 <= x < 2 ^ n ->
  forallb (Z.testbit (classical (encode_gates n x) i)) (range n) =
  (i mod 2 ^ n =? x).
Proof.
  intros Hn Hx. destruct (Z.eqb_spec (i mod 2 ^ n) x) as [He|Hne].
  - apply forallb_forall. intros j Hj. apply In_range in Hj.
    rewrite encode_bits. unfold flipped.
    replace (0 <=? j) with true by lia. replace (j <? n) with true by lia.
    simpl. rewrite <- He, Z.mod_pow2_bits_low by lia.
    now destruct (Z.testbit i j).
  - apply not_true_is_false. intros Hall. apply Hne.
    rewrite forallb_forall in Hall.
    apply Z.bits_inj'. intros j Hj0.
    destruct (Z_lt_dec j n) as [Hlt|Hge].
    + rewrite Z.mod_pow2_bits_low by lia.
      specialize (Hall j ltac:(apply In_range; lia)).
      rewrite encode_bits in Hall. unfold flipped in Hall.
      replace (0 <=? j) with true in Hall by lia.
      replace (j <? n) with true in Hall by lia. simpl in Hall.
      destruct (Z.testbit i j), (Z.testbit x j); simpl in Hall; congruence.
    + rewrite Z.mod_pow2_bits_high by lia.
      symmetry. apply (testbit_high n); lia.
Qed.

Lemma flip_mod (n i : Z) : 0 <= n -> flip i n mod 2 ^ n = i mod 2 ^ n.
Proof.
  intros Hn. apply Z.bits_inj'. intros j Hj.
  destruct (Z_lt_dec j n) as [Hlt|Hge].
  - rewrite !Z.mod_pow2_bits_low, testbit_flip by lia.
    replace (n =? j) with false by lia. now rewrite xorb_false_r.
  - now rewrite !Z.mod_pow2_bits_high by lia.
Qed.

Lemma term_classical (n x i : Z) :
  0 <= n -> 0 <= x < 2 ^ n ->
  classical (term_gates n x) i = if i mod 2 ^ n =? x then flip i n else i.
Proof.
  intros Hn Hx. unfold term_gates. rewrite !classical_app.
  change (classical [MCXGate (range n) n] ?k)
    with (if forallb (Z.testbit k) (range n) then flip k n else k).
  rewrite controls_after_encode by assumption.
  destruct (i mod 2 ^ n =? x).
  - apply Z.bits_inj'. intros j _.
    rewrite encode_bits, !testbit_flip, encode_bits by lia.
    destruct (Z.testbit i j), (flipped n x j), (n =? j); reflexivity.
  - apply encode_involutive.
Qed.

Lemma oracle_classical_list (g : Z -> Z) (n : Z) (xs : list Z) :
  0 <= n -> Forall (fun x => 0 <= x < 2 ^ n) xs -> NoDup xs ->
  forall i,
    classical (oracle_gates g n xs) i =
    if existsb (fun x => (i mod 2 ^ n =? x) && (g x mod 2 =? 1)) xs
    then flip i n else i.
Proof.
  intros Hn Hr Hnd. induction Hnd as [|x xs Hx Hnd IH]; intros i; simpl;
    [reflexivity|].
  inversion Hr as [|? ? Hx0 Hxs]; subst.
  rewrite classical_app, IH by assumption.
  destruct (g x mod 2 =? 1).
  - rewrite term_classical by assumption.
    destruct (Z.eqb_spec (i mod 2 ^ n) x) as [He|Hne]; simpl.
    + rewrite flip_mod by lia.
      replace (existsb _ xs) with false; [reflexivity|].
      symmetry. apply not_true_is_false. intros Hex.
      apply existsb_exists in Hex. destruct Hex as [y [Hy Hc]].
      apply andb_true_iff in Hc. destruct Hc as [Hc _].
      apply Z.eqb_eq in Hc. subst. contradiction.
    + reflexivity.
  - simpl. now rewrite andb_false_r.
Qed.

Lemma oracle_classical (g : Z -> Z) (n i : Z) :
  0 <= n ->
  classical (oracle_gates g n (range (2 ^ n))) i =
  if g (i mod 2 ^ n) mod 2 =? 1 then flip i n else i.
Proof.
  intros Hn. rewrite oracle_classical_list.
  - assert (Hm : 0 <= i mod 2 ^ n < 2 ^ n)
      by (apply Z.mod_pos_bound, Z.pow_pos_nonneg; lia).
    destruct (g (i mod 2 ^ n) mod 2 =? 1) eqn:Hg.
    + replace (existsb _ (range (2 ^ n))) with true; [reflexivity|].
      symmetry. apply existsb_exists. exists (i mod 2 ^ n).
      split; [now apply In_range|]. now rewrite Z.eqb_refl, Hg.
    + replace (existsb _ (range (2 ^ n))) with false; [reflexivity|].
      symmetry. apply not_true_is_false. intros Hex.
      apply existsb_exists in Hex. destruct Hex as [y [Hy Hc]].
      apply andb_true_iff in Hc. destruct Hc as [He Hy1].
      apply Z.eqb_eq in He. subst y. congruence.
  - assumption.
  - apply Forall_forall. intros x Hx. now apply In_range.
  - apply NoDup_range.
Qed.

Lemma encode_gates_wf (n x N : Z) :
  n <= N -> Forall (wf_gate N) (encode_gates n x).
Proof.
  intros HN. unfold encode_gates. apply Forall_forall. intros g Hg.
  apply in_map_iff in Hg. destruct Hg as [q [<- Hq]].
  apply filter_In in Hq. destruct Hq as [Hq _]. apply In_range in Hq.
  simpl. lia.
Qed.

Lemma encode_gates_classical (n x : Z) :
  Forall classical_gate (encode_gates n x).
Proof.
  unfold encode_gates. apply Forall_forall. intros g Hg.
  apply in_map_iff in Hg. destruct Hg as [q [<- _]]. exact I.
Qed.

Lemma term_gates_wf (n x : Z) : 0 <= n -> Forall (wf_gate (n + 1)) (term_gates n x).
Proof.
  intros Hn. unfold term_gates.
  apply Forall_app. split; [|apply Forall_app; split].
  - apply encode_gates_wf. lia.
  - constructor; [|constructor]. simpl. repeat split; try lia.
    + apply Forall_forall. intros c Hc. apply In_range in Hc. lia.
    + intros Hc. apply In_range in Hc. lia.
  - apply encode_gates_wf. lia.
Qed.

Lemma term_gates_classical (n x : Z) : Forall classical_gate (term_gates n x).
Proof.
  unfold term_gates. apply Forall_app. split; [|apply Forall_app; split].
  - apply encode_gates_classical.
  - constructor; [exact I|constructor].
  - apply encode_gates_classical.
Qed.

Lemma oracle_gates_wf (g : Z -> Z) (n : Z) (xs : list Z) :
  0 <= n -> Forall (wf_gate (n + 1)) (oracle_gates g n xs).
Proof.
  intros Hn. induction xs as [|x xs IH]; simpl; [constructor|].
  apply Forall_app. split; [|assumption].
  destruct (g x mod 2 =? 1); [now apply term_gates_wf|constructor].
Qed.

Lemma oracle_gates_classical (g : Z -> Z) (n : Z) (xs : list Z) :
  Forall classical_gate (oracle_gates g n xs).
Proof.
  induction xs as [|x xs IH]; simpl; [constructor|].
  apply Forall_app. split; [|assumption].
  destruct (g x mod 2 =? 1); [apply term_gates_classical|constructor].
Qed.

Lemma index_of_range (n x y : Z) :
  0 <= n -> 0 <= x < 2 ^ n -> 0 <= y <= 1 ->
  0 <= index_of n x y < 2 ^ (n + 1).
Proof.
  intros Hn Hx Hy. unfold index_of.
  replace (2 ^ (n + 1)) with (2 * 2 ^ n) by (rewrite Z.pow_add_r; lia).
  nia.
Qed.

Lemma index_of_mod (n x y : Z) :
  0 <= n -> 0 <= x < 2 ^ n -> index_of n x y mod 2 ^ n = x.
Proof.
  intros Hn Hx. unfold index_of.
  replace (x + 2 ^ n * y) with (x + y * 2 ^ n) by lia.
  rewrite Z.mod_add by lia. now apply Z.mod_small.
Qed.

Lemma index_of_ancilla (n x y : Z) :
  0 <= n -> 0 <= x < 2 ^ n -> 0 <= y <= 1 ->
  Z.testbit (index_of n x y) n = (y =? 1).
Proof.
  intros Hn Hx Hy. unfold index_of.
  rewrite Z.testbit_eqb by lia.
  replace (x + 2 ^ n * y) with (x + y * 2 ^ n) by lia.
  rewrite Z.div_add by lia. rewrite Z.div_small by lia.
  assert (Hc : y = 0 \/ y = 1) by lia. destruct Hc as [-> | ->]; reflexivity.
Qed.

Lemma flip_index_of (n x y : Z) :
  0 <= n -> 0 <= x < 2 ^ n -> 0 <= y <= 1 ->
  flip (index_of n x y) n = index_of n x (Z.lxor y 1).
Proof.
  intros Hn Hx Hy. apply Z.bits_inj'. intros j Hj.
  assert (Hy' : 0 <= Z.lxor y 1 <= 1).
  { assert (Hc : y = 0 \/ y = 1) by lia. destruct Hc as [-> | ->]; simpl; lia. }
  rewrite testbit_flip by lia.
  destruct (Z.eq_dec j n) as [->|Hne].
  - rewrite !index_of_ancilla, Z.eqb_refl by lia.
    assert (Hc : y = 0 \/ y = 1) by lia. destruct Hc as [-> | ->]; reflexivity.
  - replace (n =? j) with false by lia. rewrite xorb_false_r.
    destruct (Z_lt_dec j n) as [Hlt|Hge].
    + rewrite <- (Z.mod_pow2_bits_low (index_of n x y) n j) by lia.
      rewrite <- (Z.mod_pow2_bits_low (index_of n x (Z.lxor y 1)) n j) by lia.
      now rewrite !index_of_mod.
    + rewrite !(testbit_high (n + 1)); auto using index_of_range; lia.
Qed.

(** *** The Hadamard layers *)

Lemma shiftr_step (i q : Z) :
  0 <= q ->
  Z.shiftr i q = 2 * Z.shiftr i (q + 1) + Z.b2z (Z.testbit i q).
Proof.
  intros Hq.
  replace (Z.shiftr i (q + 1)) with (Z.shiftr i q / 2).
  - rewrite (Z.div_mod (Z.shiftr i q) 2) at 1 by lia.
    f_equal. rewrite <- Z.bit0_mod, Z.shiftr_spec by lia. reflexivity.
  - rewrite <- Z.shiftr_shiftr by lia.
    rewrite (Z.shiftr_div_pow2 _ 1) by lia. reflexivity.
Qed.

Lemma shiftr_flip (i q : Z) :
  0 <= q -> Z.shiftr (flip i q) (q + 1) = Z.shiftr i (q + 1).
Proof.
  intros Hq. apply Z.bits_inj'. intros j Hj.
  rewrite !Z.shiftr_spec, testbit_flip by lia.
  replace (q =? j + (q + 1)) with false by lia. now rewrite xorb_false_r.
Qed.

Lemma testbit_flip_same (i q : Z) :
  0 <= q -> Z.testbit (flip i q) q = negb (Z.testbit i q).
Proof.
  intros Hq. rewrite testbit_flip, Z.eqb_refl by lia.
  now destruct (Z.testbit i q).
Qed.

(** Hadamards on qubits [0 .. q-1] spread the basis state [|2^n>] evenly
    over the low [q] bits. *)
Lemma first_layer_inputs (n : Z) (k : nat) (q : Z) :
  0 <= q <= n ->
  run_gates (map HGate (range q))
            (mkState (n + 1) k
               (tabulate (n + 1) (fun i => if i =? 2 ^ n then 1 else 0))) =
  mkState (n + 1) (k + Z.to_nat q)
    (tabulate (n + 1)
       (fun i => if Z.shiftr i q =? 2 ^ (n - q) then 1 else 0)).
Proof.
  intros Hq. destruct Hq as [Hq0 Hqn]. revert Hqn.
  pattern q. apply natlike_ind; [| |exact Hq0]; clear q Hq0.
  - intros _. simpl. f_equal; [lia|]. apply tabulate_ext. intros i _.
    now rewrite Z.shiftr_0_r, Z.sub_0_r.
  - intros q Hq0 IH Hqn. unfold Z.succ in *.
    rewrite range_succ, map_app, run_gates_app, IH by lia.
    change (run_gates (map HGate [q]) ?s) with (apply_gate (HGate q) s).
    rewrite apply_h_tabulate by lia.
    f_equal; [lia|]. apply tabulate_ext. intros i _.
    rewrite (shiftr_step (flip i q) q), (shiftr_step i q) by lia.
    rewrite shiftr_flip, testbit_flip_same by lia.
    replace (2 ^ (n - q)) with (2 * 2 ^ (n - (q + 1)))
      by (rewrite <- Z.pow_succ_r by lia; f_equal; lia).
    destruct (Z.testbit i q); cbn [Z.b2z negb];
      repeat match goal with
             | |- context [?a =? ?b] => destruct (Z.eqb_spec a b)
             end; lia.
Qed.

Lemma shiftr_top (n i : Z) :
  0 <= n -> 0 <= i < 2 ^ (n + 1) -> Z.shiftr i n = Z.b2z (Z.testbit i n).
Proof.
  intros Hn Hi. rewrite shiftr_step by lia.
  rewrite (Z.shiftr_div_pow2 i (n + 1)) by lia.
  rewrite Z.div_small by lia. lia.
Qed.

(** The first layer as a whole: X on the ancilla, then H on all qubits,
    leaves every amplitude at [+1] or [-1] by the ancilla bit. *)
Lemma first_layer (n : Z) :
  0 <= n ->
  run_gates ([XGate n] ++ map HGate (range (n + 1))) (initialize (n + 1)) =
  mkState (n + 1) (Z.to_nat (n + 1)) (tabulate (n + 1) (sign n)).
Proof.
  intros Hn. rewrite run_gates_app. unfold initialize.
  change (run_gates [XGate n] ?s) with (apply_gate (XGate n) s).
  rewrite (apply_classical_tabulate (n + 1) (XGate n)) by (simpl; auto; lia).
  replace (tabulate (n + 1)
             (fun i => if perm (XGate n) i =? 0 then 1 else 0))
    with (tabulate (n + 1) (fun i => if i =? 2 ^ n then 1 else 0)).
  2:{ apply tabulate_ext. intros i _. simpl.
      destruct (Z.eqb_spec (flip i n) 0) as [He|Hne'];
        destruct (Z.eqb_spec i (2 ^ n)) as [Hi|Hne]; auto.
      - exfalso. apply Hne. rewrite <- (flip_involutive i n), He.
        unfold flip. apply Z.lxor_0_l.
      - exfalso. apply Hne'. rewrite Hi. unfold flip.
        apply Z.lxor_nilpotent. }
  rewrite range_succ, map_app, run_gates_app by lia.
  rewrite first_layer_inputs by lia.
  change (run_gates (map HGate [n]) ?s) with (apply_gate (HGate n) s).
  rewrite apply_h_tabulate by lia.
  f_equal; [lia|]. apply tabulate_ext. intros i Hi.
  rewrite !shiftr_top by (try apply flip_range; lia).
  rewrite testbit_flip_same, Z.sub_diag by lia. unfold sign.
  destruct (Z.testbit i n); reflexivity.
Qed.

Lemma sign_flip_low (n i q : Z) : 0 <= q < n -> sign n (flip i q) = sign n i.
Proof.
  intros Hq. unfold sign. rewrite testbit_flip by lia.
  replace (q =? n) with false by lia. now rewrite xorb_false_r.
Qed.

Lemma sign_flip_ancilla (n i : Z) : 0 <= n -> sign n (flip i n) = - sign n i.
Proof.
  intros Hn. unfold sign. rewrite testbit_flip_same by lia.
  destruct (Z.testbit i n); reflexivity.
Qed.

Lemma mod_pow2_succ (i q : Z) :
  0 <= q ->
  i mod 2 ^ (q + 1) = i mod 2 ^ q + 2 ^ q * Z.b2z (Z.testbit i q).
Proof.
  intros Hq. rewrite Z.pow_add_r, Z.pow_1_r by lia.
  assert (Hp : 0 < 2 ^ q) by (apply Z.pow_pos_nonneg; lia).
  rewrite Z.rem_mul_r by lia.
  rewrite Z.testbit_spec' by lia. reflexivity.
Qed.

(** Hadamards on qubits [0 .. q-1] applied to amplitudes [c * sign]
    gather the weight on the indices whose low [q] bits are 0. *)
Lemma second_layer (n c : Z) (k : nat) (q : Z) :
  0 <= q <= n ->
  run_gates (map HGate (range q))
            (mkState (n + 1) k (tabulate (n + 1) (fun i => c * sign n i))) =
  mkState (n + 1) (k + Z.to_nat q)
    (tabulate (n + 1)
       (fun i => if i mod 2 ^ q =? 0 then c * 2 ^ q * sign n i else 0)).
Proof.
  intros Hq. destruct Hq as [Hq0 Hqn]. revert Hqn.
  pattern q. apply natlike_ind; [| |exact Hq0]; clear q Hq0.
  - intros _. simpl. f_equal; [lia|]. apply tabulate_ext. intros i _.
    rewrite Z.mod_1_r. simpl. lia.
  - intros q Hq0 IH Hqn. unfold Z.succ in *.
    rewrite range_succ, map_app, run_gates_app, IH by lia.
    change (run_gates (map HGate [q]) ?s) with (apply_gate (HGate q) s).
    rewrite apply_h_tabulate by lia.
    f_equal; [lia|]. apply tabulate_ext. intros i _.
    rewrite flip_mod, sign_flip_low, mod_pow2_succ by lia.
    assert (Hp : 0 < 2 ^ q) by (apply Z.pow_pos_nonneg; lia).
    assert (Hm : 0 <= i mod 2 ^ q) by (apply Z.mod_pos_bound; lia).
    rewrite (Z.pow_add_r 2 q 1), Z.pow_1_r by lia.
    destruct (Z.testbit i q); cbn [Z.b2z];
      repeat match goal with
             | |- context [?a =? ?b] => destruct (Z.eqb_spec a b)
             end; nia.
Qed.

(** *** The state of the Deutsch-Jozsa circuit *)

(** The oracle permutation is its own inverse. *)
Lemma oracle_pullback (g : Z -> Z) (n i : Z) :
  0 <= n ->
  pullback (oracle_gates g n (range (2 ^ n))) i =
  if g (i mod 2 ^ n) mod 2 =? 1 then flip i n else i.
Proof.
  intros Hn.
  set (gs := oracle_gates g n (range (2 ^ n))).
  set (j := if g (i mod 2 ^ n) mod 2 =? 1 then flip i n else i).
  assert (Hj : classical gs j = i).
  { unfold gs, j. rewrite oracle_classical by assumption.
    destruct (g (i mod 2 ^ n) mod 2 =? 1) eqn:Hg.
    - rewrite flip_mod, Hg by assumption. apply flip_involutive.
    - now rewrite Hg. }
  rewrite <- Hj. apply (pullback_classical (n + 1)).
  now apply oracle_gates_wf.
Qed.

(** Phase kickback: after the first layer and the oracle, the amplitude
    of index [i] is the sign of the ancilla bit, negated where [g] is
    odd on the input register of [i]. *)
Lemma state_after_oracle (g : Z -> Z) (n : Z) :
  0 <= n ->
  run_gates ([XGate n] ++ map HGate (range (n + 1))
             ++ oracle_gates g n (range (2 ^ n)))
            (initialize (n + 1)) =
  mkState (n + 1) (Z.to_nat (n + 1))
    (tabulate (n + 1)
       (fun i => (if g (i mod 2 ^ n) mod 2 =? 1 then -1 else 1) * sign n i)).
Proof.
  intros Hn. rewrite app_assoc, run_gates_app, first_layer by assumption.
  rewrite run_classical_tabulate
    by (auto using oracle_gates_classical, oracle_gates_wf).
  f_equal. apply tabulate_ext. intros i _.
  rewrite oracle_pullback by assumption.
  destruct (g (i mod 2 ^ n) mod 2 =? 1).
  - rewrite sign_flip_ancilla by assumption. lia.
  - lia.
Qed.

(** For a function that is constant modulo 2 on the inputs, the final
    state has all its weight on the two indices with input register 0. *)
Lemma final_state_constant (g : Z -> Z) (n v : Z) :
  0 <= n -> (forall x, 0 <= x < 2 ^ n -> g x = v) ->
  run_gates ([XGate n] ++ map HGate (range (n + 1))
             ++ oracle_gates g n (range (2 ^ n))
             ++ map HGate (range n) ++ [Measure (range n) (range n)])
            (initialize (n + 1)) =
  mkState (n + 1) (Z.to_nat (n + 1) + Z.to_nat n)
    (tabulate (n + 1)
       (fun i => if i mod 2 ^ n =? 0
                 then (if v mod 2 =? 1 then -1 else 1) * 2 ^ n * sign n i
                 else 0)).
Proof.
  intros Hn Hg.
  rewrite !app_assoc, run_gates_app, run_gates_app.
  rewrite <- !app_assoc, state_after_oracle by assumption.
  replace (tabulate (n + 1)
             (fun i => (if g (i mod 2 ^ n) mod 2 =? 1 then -1 else 1)
                       * sign n i))
    with (tabulate (n + 1)
            (fun i => (if v mod 2 =? 1 then -1 else 1) * sign n i)).
  - rewrite second_layer by lia. reflexivity.
  - apply tabulate_ext. intros i _. rewrite Hg; [reflexivity|].
    apply Z.mod_pos_bound, Z.pow_pos_nonneg; lia.
Qed.

(** *** Measurement *)

Lemma measured_app (gs1 gs2 : list Gate) :
  measured (gs1 ++ gs2) = measured gs1 ++ measured gs2.
Proof. unfold measured. apply flat_map_app. Qed.

Lemma measured_hadamards (l : list Z) : measured (map HGate l) = [].
Proof. induction l as [|q l IH]; simpl; auto. Qed.

Lemma measured_classical (gs : list Gate) :
  Forall classical_gate gs -> measured gs = [].
Proof.
  induction 1 as [|g gs Hg _ IH]; simpl; [reflexivity|].
  destruct g; simpl in *; try contradiction; assumption.
Qed.

Lemma register_value_zero (pairs : list (Z * Z)) (i : Z) :
  (forall p, In p pairs -> Z.testbit i (fst p) = false) ->
  register_value pairs i = 0.
Proof.
  induction pairs as [|p pairs IH]; intros Hp; simpl; [reflexivity|].
  rewrite (Hp p) by now left.
  rewrite IH by (intros r Hr; apply Hp; now right). reflexivity.
Qed.

Lemma register_value_inputs_zero (n i : Z) :
  0 <= n -> i mod 2 ^ n = 0 ->
  register_value (combine (range n) (range n)) i = 0.
Proof.
  intros Hn Hi. apply register_value_zero. intros [q c] Hp.
  apply in_combine_l in Hp. apply In_range in Hp. simpl.
  rewrite <- (Z.mod_pow2_bits_low i n q), Hi by lia. apply Z.testbit_0_l.
Qed.

Lemma sumZ_app (l1 l2 : list Z) : sumZ (l1 ++ l2) = sumZ l1 + sumZ l2.
Proof. induction l1 as [|a l1 IH]; simpl; [reflexivity|]. rewrite IH. lia. Qed.

Lemma sumZ_single (G : Z -> Z) (K : Z) :
  0 < K -> (forall i, 0 < i < K -> G i = 0) ->
  sumZ (map G (range K)) = G 0.
Proof.
  intros HK. replace K with (Z.succ (K - 1)) by lia.
  assert (H0 : 0 <= K - 1) by lia. revert H0. generalize (K - 1). clear K HK.
  apply (natlike_ind (fun k => (forall i, 0 < i < Z.succ k -> G i = 0) ->
                               sumZ (map G (range (Z.succ k))) = G 0)).
  - intros _. simpl. lia.
  - intros k Hk IH HG. unfold Z.succ in *.
    rewrite (range_succ (k + 1)), map_app, sumZ_app by lia.
    rewrite IH by (intros i Hi; apply HG; lia).
    simpl. rewrite (HG (k + 1)) by lia. lia.
Qed.

(** Weight of register value 0 when the amplitude vector is [a] and [a]
    vanishes off the indices with input register 0. *)
Lemma outcome_weight_zero (n : Z) (k : nat) (a : Z -> Z) :
  0 <= n -> (forall i, i mod 2 ^ n <> 0 -> a i = 0) ->
  outcome_weight (combine (range n) (range n))
                 (mkState (n + 1) k (tabulate (n + 1) a)) 0 =
  a 0 * a 0 + a (2 ^ n) * a (2 ^ n).
Proof.
  intros Hn Ha. unfold outcome_weight. simpl qubit_count.
  assert (Hp : 0 < 2 ^ n) by (apply Z.pow_pos_nonneg; lia).
  replace (2 ^ (n + 1)) with (2 ^ n + 2 ^ n)
    by (rewrite Z.pow_add_r; lia).
  rewrite range_app, map_app, sumZ_app, map_map by lia.
  assert (Hpow : 2 ^ n + 2 ^ n = 2 ^ (n + 1)) by (rewrite Z.pow_add_r; lia).
  assert (Hterm : forall i, 0 <= i < 2 ^ (n + 1) ->
            (if register_value (combine (range n) (range n)) i =? 0
             then amplitude_at (mkState (n + 1) k (tabulate (n + 1) a)) i *
                  amplitude_at (mkState (n + 1) k (tabulate (n + 1) a)) i
             else 0) = a i * a i).
  { intros i Hi. rewrite amplitude_at_tabulate by assumption.
    destruct (Z.eq_dec (i mod 2 ^ n) 0) as [Hz|Hnz].
    - now rewrite register_value_inputs_zero.
    - rewrite Ha by assumption. now destruct (_ =? 0). }
  f_equal.
  - rewrite sumZ_single; [apply Hterm; lia|lia|].
    intros i Hi. rewrite Hterm by lia. rewrite Ha; [reflexivity|].
    rewrite Z.mod_small; lia.
  - rewrite sumZ_single; [|lia|].
    + replace (2 ^ n + 0) with (2 ^ n) by lia. apply Hterm. lia.
    + intros i Hi. rewrite Hterm by lia. rewrite Ha; [reflexivity|].
      replace (2 ^ n + i) with (i + 1 * 2 ^ n) by lia.
      rewrite Z.mod_add, Z.mod_small; lia.
Qed.

(** *** Sampling and counting *)

Lemma range_two (K : Z) : 2 <= K -> exists tail, range K = 0 :: 1 :: tail.
Proof.
  intros HK. replace K with (1 + (1 + (K - 2))) by lia.
  rewrite (range_app 1), (range_app 1 (K - 2)) by lia.
  change (range 1) with [0]. simpl. eauto.
Qed.

Lemma pick_certain (p : Z -> Q) (K : Z) (u : Q) :
  2 <= K -> (p 0%Z == 1)%Q -> (u < 1)%Q -> pick p (range K) u = 0.
Proof.
  intros HK Hp Hu. destruct (range_two K HK) as [tail ->]. simpl.
  destruct (Qle_bool (p 0) u) eqn:Hle; [|reflexivity].
  apply Qle_bool_iff in Hle. rewrite Hp in Hle.
  exfalso. apply (Qlt_not_le _ _ Hu Hle).
Qed.

Lemma bitstring_zero (n : Z) : bitstring n 0 = all_zero n.
Proof.
  unfold bitstring, all_zero. rewrite <- range_length.
  generalize EmptyString. induction (range n) as [|k l IH]; intros acc; simpl.
  - reflexivity.
  - rewrite Z.testbit_0_l, IH. clear IH.
    induction (List.length l) as [|m IHm]; simpl; [reflexivity|].
    now rewrite IHm.
Qed.

Lemma count_same (z : string) (l : list string) (c : Z) :
  Forall (fun o => o = z) l ->
  fold_left (fun acc k => count_one k acc) l [(z, c)] =
  [(z, c + Z.of_nat (List.length l))].
Proof.
  intros Hl. revert c. induction Hl as [|o l -> _ IH]; intros c; simpl.
  - f_equal. f_equal. lia.
  - rewrite String.eqb_refl, IH. f_equal. f_equal. lia.
Qed.

Lemma get_counts_same (z : string) (l : list string) :
  Forall (fun o => o = z) l -> l <> [] ->
  get_counts l = [(z, Z.of_nat (List.length l))].
Proof.
  intros Hl Hne. destruct l as [|o l]; [contradiction|].
  inversion Hl as [|? ? Ho Hl']; subst. unfold get_counts. simpl.
  rewrite count_same by assumption. f_equal. f_equal. lia.
Qed.

(** Keys of the counts are sampled outcomes. *)
Lemma count_one_keys (o : string) (c : list (string * Z)) (key : string) :
  In key (map fst (count_one o c)) -> key = o \/ In key (map fst c).
Proof.
  induction c as [|[k v] c IH]; simpl.
  - intros [<-|[]]. now left.
  - destruct (String.eqb k o) eqn:Hk; simpl.
    + intros [<-|Hin]; right; auto.
    + intros [<-|Hin]; [right; now left|].
      destruct (IH Hin) as [->|Hc]; auto.
Qed.

Lemma get_counts_keys (l : list string) (key : string) :
  In key (map fst (get_counts l)) -> In key l.
Proof.
  unfold get_counts.
  assert (Hgen : forall c,
             In key (map fst (fold_left (fun acc k => count_one k acc) l c)) ->
             In key l \/ In key (map fst c)).
  { induction l as [|o l IH]; intros c; simpl; [now right|].
    intros Hin. destruct (IH _ Hin) as [Hl|Hc]; [left; now right|].
    destruct (count_one_keys _ _ _ Hc) as [->|Hc']; auto. }
  intros Hin. destruct (Hgen [] Hin) as [Hl|[]]. assumption.
Qed.

(** *** The pipeline on a constant function *)

Lemma pipeline_constant (g : Z -> Z) (n v : Z) :
  1 <= n -> (forall x, 0 <= x < 2 ^ n -> g x = v) ->
  exists oracle circ,
    build_oracle_from_function (total g) n = inr oracle /\
    deutsch_jozsa_circuit oracle = inr circ /\
    num_clbits circ = n /\
    (outcome_probability circ 0%Z == 1)%Q.
Proof.
  intros Hn Hg.
  set (oracle := mkCircuit (n + 1) 0 (oracle_gates g n (range (2 ^ n)))).
  set (circ := mkCircuit (n + 1) n
         ([XGate n] ++ map HGate (range (n + 1)) ++ data oracle
          ++ map HGate (range n) ++ [Measure (range n) (range n)])).
  exists oracle, circ. split; [apply build_oracle_total; lia|].
  split.
  { apply (deutsch_jozsa_circuit_layout oracle n);
      [lia|reflexivity|simpl; lia|].
    unfold wf_circuit. simpl. apply oracle_gates_wf. lia. }
  split; [reflexivity|].
  unfold outcome_probability, final_state. subst circ oracle.
  cbn [data num_qubits].
  rewrite (final_state_constant g n v) by (auto; lia).
  assert (Hm : measured
            ([XGate n] ++ map HGate (range (n + 1))
             ++ oracle_gates g n (range (2 ^ n))
             ++ map HGate (range n) ++ [Measure (range n) (range n)]) =
          combine (range n) (range n)).
  { rewrite !measured_app, !measured_hadamards.
    rewrite (measured_classical (oracle_gates _ _ _))
      by apply oracle_gates_classical.
    simpl. now rewrite app_nil_r. }
  rewrite Hm. cbn [hadamards].
  assert (Hp : 0 < 2 ^ n) by (apply Z.pow_pos_nonneg; lia).
  rewrite outcome_weight_zero.
  - rewrite Z.mod_0_l, Z.mod_same by lia. simpl (0 =? 0).
    unfold sign. rewrite Z.testbit_0_l, Z.pow2_bits_true by lia.
    unfold Qeq. simpl Qnum. simpl Qden.
    rewrite Z2Pos.id by (apply Z.pow_pos_nonneg; lia).
    rewrite Nat2Z.inj_add, !Z2Nat.id by lia.
    rewrite !Z.pow_add_r, Z.pow_1_r by lia.
    destruct (v mod 2 =? 1); ring.
  - lia.
  - intros i Hi. destruct (Z.eqb_spec (i mod 2 ^ n) 0); [contradiction|].
    reflexivity.
Qed.

Lemma sevenths_uniform (j : nat) : (0 <= sevenths j)%Q /\ (sevenths j < 1)%Q.
Proof.
  pose proof (Nat.mod_upper_bound j 7 ltac:(discriminate)) as Hj.
  unfold sevenths, Qle, Qlt. cbn [Qnum Qden]. lia.
Qed.

Lemma run_total (backend : Backend) (g : Z -> Z) (n shots : Z) :
  1 <= n ->
  run_deutsch_jozsa backend (total g) n shots =
  backend (dj_layout n (oracle_gates g n (range (2 ^ n)))) shots.
Proof.
  intros Hn. unfold run_deutsch_jozsa.
  rewrite build_oracle_total by assumption. cbn [bind].
  rewrite (deutsch_jozsa_circuit_layout _ n); auto; try (simpl; lia).
  unfold wf_circuit. cbn [data num_qubits]. apply oracle_gates_wf. lia.
Qed.

(* ================================================================= *)
(** ** Part 4: the properties of the specification *)

(** C1.  For [n >= 1] and a total [g] with values in {0, 1}, the oracle
    built from [g] exists, has [n + 1] qubits, and its gate sequence maps
    the basis state with input register [x] and ancilla [y] to the basis
    state with the same input register and ancilla [y xor g x]. *)
Theorem oracle_implements_xor (n : Z) (g : Z -> Z) (x y : Z) :
  1 <= n ->
  (forall z, 0 <= z < 2 ^ n -> g z = 0 \/ g z = 1) ->
  0 <= x < 2 ^ n ->
  y = 0 \/ y = 1 ->
  exists oracle,
    build_oracle_from_function (total g) n = inr oracle /\
    num_qubits oracle = n + 1 /\
    run_gates (data oracle) (basis_state (n + 1) (index_of n x y)) =
    basis_state (n + 1) (index_of n x (Z.lxor y (g x))).
Proof.
  intros Hn Hg Hx Hy.
  exists (mkCircuit (n + 1) 0 (oracle_gates g n (range (2 ^ n)))).
  split; [apply build_oracle_total; lia|]. split; [reflexivity|]. simpl.
  rewrite run_classical_basis
    by (auto using oracle_gates_classical; apply oracle_gates_wf; lia).
  f_equal. rewrite oracle_classical by lia.
  rewrite index_of_mod by lia.
  destruct (Hg x Hx) as [Hgx|Hgx]; rewrite Hgx; simpl.
  - now rewrite Z.lxor_0_r.
  - apply flip_index_of; lia.
Qed.

Lemma oracle_implements_xor_witness :
  exists oracle,
    build_oracle_from_function (total (fun z => z)) 1 = inr oracle /\
    num_qubits oracle = 1 + 1 /\
    run_gates (data oracle) (basis_state (1 + 1) (index_of 1 1 0)) =
    basis_state (1 + 1) (index_of 1 1 (Z.lxor 0 1)).
Proof.
  apply (oracle_implements_xor 1 (fun z => z) 1 0).
  - lia.
  - intros z Hz. change (2 ^ 1) with 2 in Hz. lia.
  - change (2 ^ 1) with 2. lia.
  - now left.
Defined.

(** C4.  For an oracle on [n + 1] qubits with at most [n] classical
    bits (an oracle built by the synthesis has none) whose gates name
    qubits of its register, [deutsch_jozsa_circuit] returns the circuit
    with exactly this instruction sequence: X on qubit [n]; H on qubits
    [0 .. n]; the oracle's gates in order; H on qubits [0 .. n-1]; the
    measurement of qubits [0 .. n-1] into classical bits [0 .. n-1],
    which for [n = 0] measures no qubit and appends nothing. *)
Theorem deutsch_jozsa_circuit_sequence (oracle : QuantumCircuit) (n : Z) :
  0 <= n -> num_qubits oracle = n + 1 -> num_clbits oracle <= n ->
  wf_circuit oracle ->
  deutsch_jozsa_circuit oracle =
  inr (mkCircuit (n + 1) n
         ([XGate n] ++ map HGate (range (n + 1)) ++ data oracle
          ++ map HGate (range n)
          ++ if n <=? 0 then [] else [Measure (range n) (range n)])).
Proof.
  intros Hn Hq Hc Hwf. now apply deutsch_jozsa_circuit_spec.
Qed.

Lemma deutsch_jozsa_circuit_sequence_witness :
  deutsch_jozsa_circuit (mkCircuit 2 0 [XGate 0; MCXGate [0] 1; XGate 0]) =
  inr (mkCircuit (1 + 1) 1
         ([XGate 1] ++ map HGate (range (1 + 1))
          ++ data (mkCircuit 2 0 [XGate 0; MCXGate [0] 1; XGate 0])
          ++ map HGate (range 1)
          ++ if 1 <=? 0 then [] else [Measure (range 1) (range 1)])).
Proof.
  apply (deutsch_jozsa_circuit_sequence
           (mkCircuit 2 0 [XGate 0; MCXGate [0] 1; XGate 0]) 1).
  - lia.
  - reflexivity.
  - simpl. lia.
  - unfold wf_circuit. simpl. repeat constructor; simpl; lia.
Defined.

(** C6, as the claim states it, fails: for [n = 0] and the constant
    function 0 the synthesis returns an oracle (one qubit, no gate). *)
Lemma width_zero_returns_oracle :
  build_oracle_from_function (total f_constant) 0 = inr (mkCircuit 1 0 []).
Proof. reflexivity. Qed.

(** C6, amended.  A negative [n] makes the synthesis raise (the circuit
    constructor refuses a negative register size, and [range (2 ** n)]
    refuses the float [2 ** -1]); for [n = 0] there is no width check, and
    when [f 0] is even the synthesis returns the empty oracle on one
    qubit. *)
Theorem small_width_behaviour (f : Z -> result Z) (n : Z) :
  n < 1 ->
  (n < 0 ->
   build_oracle_from_function f n = inl CircuitError \/
   build_oracle_from_function f n = inl TypeError) /\
  (n = 0 -> forall v, f 0 = inr v -> v mod 2 <> 1 ->
   build_oracle_from_function f n = inr (mkCircuit 1 0 [])).
Proof.
  intros Hn. split.
  - intros Hneg. unfold build_oracle_from_function, new_circuit, range_pow2.
    destruct (Z.ltb_spec (n + 1) 0) as [Hlt|Hge]; simpl.
    + now left.
    + right. replace (n <? 0) with true by lia. reflexivity.
  - intros -> v Hf Hv. unfold build_oracle_from_function. simpl.
    rewrite Hf. simpl. replace (v mod 2 =? 1) with false by lia.
    reflexivity.
Qed.

Lemma small_width_behaviour_witness :
  (0 < 0 ->
   build_oracle_from_function (total f_constant) 0 = inl CircuitError \/
   build_oracle_from_function (total f_constant) 0 = inl TypeError) /\
  (0 = 0 -> forall v, total f_constant 0 = inr v -> v mod 2 <> 1 ->
   build_oracle_from_function (total f_constant) 0 = inr (mkCircuit 1 0 [])).
Proof. apply (small_width_behaviour (total f_constant) 0). lia. Defined.

(** C7.  If [f] raises somewhere in [0, 2^n), the synthesis returns no
    oracle: it raises the very exception [f] raised on the least such
    value, all smaller values having been evaluated without failure. *)
Theorem predicate_failure_propagates (f : Z -> result Z) (n x : Z) (e : PyExn) :
  1 <= n -> 0 <= x < 2 ^ n -> f x = inl e ->
  exists x0 e0,
    0 <= x0 <= x /\ f x0 = inl e0 /\
    (forall y, 0 <= y < x0 -> exists v, f y = inr v) /\
    build_oracle_from_function f n = inl e0.
Proof.
  intros Hn Hx Hf.
  destruct (first_failure f (x + 1) ltac:(lia))
    as [Hall|(x0 & e0 & Hx0 & Hf0 & Hlow)].
  - destruct (Hall x ltac:(lia)) as [v Hv]. congruence.
  - exists x0, e0. repeat split; auto; try lia.
    unfold build_oracle_from_function, new_circuit, range_pow2.
    replace (n + 1 <? 0) with false by lia.
    replace (n <? 0) with false by lia. simpl.
    apply (oracle_loop_raises f n (2 ^ n) x0 e0); auto. lia.
Qed.

Lemma predicate_failure_propagates_witness :
  exists x0 e0,
    0 <= x0 <= 2 /\
    (fun z => if z =? 2 then inl (Raised 7) else inr 1) x0 = inl e0 /\
    (forall y, 0 <= y < x0 ->
               exists v, (fun z => if z =? 2 then inl (Raised 7) else inr 1) y
                         = inr v) /\
    build_oracle_from_function
      (fun z => if z =? 2 then inl (Raised 7) else inr 1) 2 = inl e0.
Proof.
  apply (predicate_failure_propagates
           (fun z => if z =? 2 then inl (Raised 7) else inr 1) 2 2 (Raised 7)).
  - lia.
  - change (2 ^ 2) with 4. lia.
  - reflexivity.
Defined.

(** C8, as the claim states it, fails: with [shots = 0] the function [f]
    is still evaluated, so an exception of [f] surfaces instead of a
    rejection of the shot count; and with a backend that accepts any shot
    count the run returns normally. *)
Lemma shots_not_checked_first :
  run_deutsch_jozsa (simulator (fun _ => 0%Q))
                    (fun _ => inl (Raised 7)) 1 0 = inl (Raised 7) /\
  run_deutsch_jozsa (fun _ _ => inr []) (total f_constant) 1 0 = inr [].
Proof. split; reflexivity. Qed.

(** C8, amended.  [run_deutsch_jozsa] never examines [shots] itself.  For
    [shots <= 0] it still builds the oracle and the circuit first: a
    failure of the synthesis is what the caller sees, and when both
    builders return, the outcome is whatever the backend answers for the
    finished circuit and the unchanged shot count.  For a total function
    on [n >= 1] input bits both builders do return, and with the
    simulator backend the answer is the rejection of the shot count. *)
Theorem shots_left_to_backend (backend : Backend) (f : Z -> result Z)
        (g : Z -> Z) (n shots : Z) :
  shots <= 0 -> 1 <= n ->
  (forall e, build_oracle_from_function f n = inl e ->
             run_deutsch_jozsa backend f n shots = inl e) /\
  (forall oracle circ,
      build_oracle_from_function f n = inr oracle ->
      deutsch_jozsa_circuit oracle = inr circ ->
      run_deutsch_jozsa backend f n shots = backend circ shots) /\
  (exists oracle circ,
      build_oracle_from_function (total g) n = inr oracle /\
      deutsch_jozsa_circuit oracle = inr circ /\
      run_deutsch_jozsa backend (total g) n shots = backend circ shots) /\
  (forall rng,
      run_deutsch_jozsa (simulator rng) (total g) n shots =
      inl ShotCountInvalid).
Proof.
  intros Hs Hn.
  assert (Hwf : wf_circuit
                  (mkCircuit (n + 1) 0 (oracle_gates g n (range (2 ^ n)))))
    by (unfold wf_circuit; cbn [data num_qubits]; apply oracle_gates_wf; lia).
  split; [|split; [|split]].
  - intros e He. unfold run_deutsch_jozsa. now rewrite He.
  - intros oracle circ Ho Hc. unfold run_deutsch_jozsa.
    rewrite Ho. cbn [bind]. now rewrite Hc.
  - exists (mkCircuit (n + 1) 0 (oracle_gates g n (range (2 ^ n)))).
    exists (dj_layout n (oracle_gates g n (range (2 ^ n)))).
    split; [apply build_oracle_total; lia|].
    split; [|apply run_total; lia].
    apply (deutsch_jozsa_circuit_layout
             (mkCircuit (n + 1) 0 (oracle_gates g n (range (2 ^ n)))) n);
      auto; simpl; lia.
  - intros rng. rewrite run_total by lia. unfold simulator.
    replace (shots <=? 0) with true by lia. reflexivity.
Qed.

Lemma shots_left_to_backend_witness :
  (forall e, build_oracle_from_function (fun _ => inl (Raised 7)) 1 = inl e ->
             run_deutsch_jozsa (simulator sevenths)
                               (fun _ => inl (Raised 7)) 1 0 = inl e) /\
  (forall oracle circ,
      build_oracle_from_function (fun _ => inl (Raised 7)) 1 = inr oracle ->
      deutsch_jozsa_circuit oracle = inr circ ->
      run_deutsch_jozsa (simulator sevenths)
                        (fun _ => inl (Raised 7)) 1 0 =
      simulator sevenths circ 0) /\
  (exists oracle circ,
      build_oracle_from_function (total parity) 1 = inr oracle /\
      deutsch_jozsa_circuit oracle = inr circ /\
      run_deutsch_jozsa (simulator sevenths) (total parity) 1 0 =
      simulator sevenths circ 0) /\
  (forall rng,
      run_deutsch_jozsa (simulator rng) (total parity) 1 0 =
      inl ShotCountInvalid).
Proof.
  apply (shots_left_to_backend (simulator sevenths)
                               (fun _ => inl (Raised 7)) parity 1 0).
  - lia.
  - lia.
Defined.

(** C9.  For [n >= 1] and [g] zero on all of [0, 2^n), the synthesis
    returns the oracle on [n + 1] qubits that holds no gate. *)
Theorem constant_zero_oracle_empty (n : Z) (g : Z -> Z) :
  1 <= n -> (forall x, 0 <= x < 2 ^ n -> g x = 0) ->
  build_oracle_from_function (total g) n = inr (mkCircuit (n + 1) 0 []).
Proof.
  intros Hn Hg. rewrite build_oracle_total by lia.
  rewrite oracle_gates_zero; [reflexivity|].
  intros x Hx. apply Hg. now apply In_range.
Qed.

Lemma constant_zero_oracle_empty_witness :
  build_oracle_from_function (total f_constant) 3 = inr (mkCircuit (3 + 1) 0 []).
Proof.
  apply (constant_zero_oracle_empty 3 f_constant).
  - lia.
  - intros x _. reflexivity.
Defined.

(** C10.  For [n >= 1] and any total integer-valued [g], the synthesis
    succeeds and returns the same circuit for [g] and for
    [x |-> g x mod 2]: values outside {0, 1} are not refused, only their
    residue modulo 2 is used. *)
Theorem oracle_depends_on_residue (n : Z) (g : Z -> Z) :
  1 <= n ->
  build_oracle_from_function (total g) n =
  build_oracle_from_function (total (fun x => g x mod 2)) n /\
  exists oracle, build_oracle_from_function (total g) n = inr oracle.
Proof.
  intros Hn. split.
  - unfold build_oracle_from_function.
    destruct (new_circuit (n + 1) 0) as [e|qc]; [reflexivity|]. simpl.
    destruct (range_pow2 n) as [e|xs]; [reflexivity|]. simpl.
    apply oracle_loop_mod2.
  - rewrite build_oracle_total by lia. eauto.
Qed.

Lemma oracle_depends_on_residue_witness :
  build_oracle_from_function (total (fun x => 3 * x - 5)) 2 =
  build_oracle_from_function (total (fun x => (3 * x - 5) mod 2)) 2 /\
  exists oracle,
    build_oracle_from_function (total (fun x => 3 * x - 5)) 2 = inr oracle.
Proof. apply (oracle_depends_on_residue 2 (fun x => 3 * x - 5)). lia. Defined.

(** C2.  For [n >= 1] and [g] constant 0 or constant 1 on [0, 2^n), the
    pipeline built from the oracle of [g] gives the all-zero register
    value probability 1; with uniform draws in [0, 1) and a positive shot
    count every sampled outcome is the all-zero bitstring, and the
    returned counts hold that bitstring alone, [shots] times. *)
Theorem constant_function_all_zero (n : Z) (g : Z -> Z) (rng : nat -> Q)
        (shots : Z) :
  1 <= n ->
  (forall x, 0 <= x < 2 ^ n -> g x = 0) \/
  (forall x, 0 <= x < 2 ^ n -> g x = 1) ->
  0 < shots ->
  (forall j, (0 <= rng j)%Q /\ (rng j < 1)%Q) ->
  exists oracle circ,
    build_oracle_from_function (total g) n = inr oracle /\
    deutsch_jozsa_circuit oracle = inr circ /\
    (outcome_probability circ 0%Z == 1)%Q /\
    bitstring (num_clbits circ) 0 = all_zero n /\
    Forall (fun o => o = all_zero n) (sample rng circ shots) /\
    run_deutsch_jozsa (simulator rng) (total g) n shots =
    inr [(all_zero n, shots)].
Proof.
  intros Hn Hg Hs Hrng.
  assert (Hpipe : exists v, forall x, 0 <= x < 2 ^ n -> g x = v)
    by (destruct Hg; eauto).
  destruct Hpipe as [v Hv].
  destruct (pipeline_constant g n v Hn Hv) as (oracle & circ & Ho & Hc & Hcl & Hp).
  assert (Hsample : Forall (fun o => o = all_zero n) (sample rng circ shots)).
  { unfold sample. apply Forall_forall. intros o Ho'.
    apply in_map_iff in Ho'. destruct Ho' as [j [<- _]].
    rewrite Hcl, pick_certain; auto using bitstring_zero.
    - change 2 with (2 ^ 1) at 1. apply Z.pow_le_mono_r; lia.
    - apply Hrng. }
  exists oracle, circ. repeat split; auto.
  - rewrite Hcl. apply bitstring_zero.
  - unfold run_deutsch_jozsa. rewrite Ho. cbn [bind]. rewrite Hc. cbn [bind].
    unfold simulator. replace (shots <=? 0) with false by lia.
    unfold ret. f_equal. rewrite (get_counts_same (all_zero n)); auto.
    + unfold sample. rewrite length_map, length_seq. f_equal. f_equal. lia.
    + unfold sample. intros Hnil. apply (f_equal (@List.length _)) in Hnil.
      rewrite length_map, length_seq in Hnil. simpl in Hnil. lia.
Qed.

Lemma constant_function_all_zero_witness :
  exists oracle circ,
    build_oracle_from_function (total (fun _ => 1)) 3 = inr oracle /\
    deutsch_jozsa_circuit oracle = inr circ /\
    (outcome_probability circ 0%Z == 1)%Q /\
    bitstring (num_clbits circ) 0 = all_zero 3 /\
    Forall (fun o => o = all_zero 3) (sample sevenths circ 5) /\
    run_deutsch_jozsa (simulator sevenths) (total (fun _ => 1)) 3 5 =
    inr [(all_zero 3, 5)].
Proof.
  apply (constant_function_all_zero 3 (fun _ => 1) sevenths 5).
  - lia.
  - right. intros x _. reflexivity.
  - lia.
  - apply sevenths_uniform.
Defined.

(** C3.  For [n = 2] and the parity function (values 0, 1, 1, 0 on
    0 .. 3) the pipeline gives the all-zero register value probability 0;
    with uniform draws in [0, 1) and at least one shot no sampled outcome
    is the all-zero bitstring, and the returned counts have no entry for
    it. *)
Theorem parity_never_all_zero (rng : nat -> Q) (shots : Z) :
  1 <= shots ->
  (forall j, (0 <= rng j)%Q /\ (rng j < 1)%Q) ->
  map parity (range 4) = [0; 1; 1; 0] /\
  exists oracle circ counts,
    build_oracle_from_function (total parity) 2 = inr oracle /\
    deutsch_jozsa_circuit oracle = inr circ /\
    (outcome_probability circ 0%Z == 0)%Q /\
    ~ In (all_zero 2) (sample rng circ shots) /\
    run_deutsch_jozsa (simulator rng) (total parity) 2 shots = inr counts /\
    ~ In (all_zero 2) (map fst counts).
Proof.
  intros Hs Hrng. split; [reflexivity|].
  set (oracle := mkCircuit 3 0
         [XGate 1; MCXGate [0; 1] 2; XGate 1;
          XGate 0; MCXGate [0; 1] 2; XGate 0]).
  set (circ := mkCircuit 3 2
         [XGate 2; HGate 0; HGate 1; HGate 2;
          XGate 1; MCXGate [0; 1] 2; XGate 1;
          XGate 0; MCXGate [0; 1] 2; XGate 0;
          HGate 0; HGate 1; Measure [0; 1] [0; 1]]).
  assert (Ho : build_oracle_from_function (total parity) 2 = inr oracle)
    by (vm_compute; reflexivity).
  assert (Hc : deutsch_jozsa_circuit oracle = inr circ)
    by (vm_compute; reflexivity).
  assert (Hp0 : outcome_probability circ 0 = 0 # 32)
    by (vm_compute; reflexivity).
  assert (Hsample : ~ In (all_zero 2) (sample rng circ shots)).
  { unfold sample. intros Hin. apply in_map_iff in Hin.
    destruct Hin as [j [Hj _]]. revert Hj.
    change (range (2 ^ num_clbits circ)) with [0; 1; 2; 3].
    change (num_clbits circ) with 2.
    cbn [pick]. rewrite Hp0.
    replace (Qle_bool (0 # 32) (rng j)) with true.
    - destruct (Qle_bool _ _); [destruct (Qle_bool _ _)|];
        vm_compute; discriminate.
    - symmetry. apply Qle_bool_iff.
      apply Qle_trans with (y := 0%Q); [|apply Hrng].
      unfold Qle. simpl. lia. }
  exists oracle, circ, (get_counts (sample rng circ shots)).
  split; [exact Ho|]. split; [exact Hc|].
  split; [rewrite Hp0; reflexivity|]. split; [exact Hsample|]. split.
  - unfold run_deutsch_jozsa. rewrite Ho. cbn [bind]. rewrite Hc. cbn [bind].
    unfold simulator. replace (shots <=? 0) with false by lia. reflexivity.
  - intros Hin. apply Hsample. now apply get_counts_keys.
Qed.

Lemma parity_never_all_zero_witness :
  map parity (range 4) = [0; 1; 1; 0] /\
  exists oracle circ counts,
    build_oracle_from_function (total parity) 2 = inr oracle /\
    deutsch_jozsa_circuit oracle = inr circ /\
    (outcome_probability circ 0%Z == 0)%Q /\
    ~ In (all_zero 2) (sample sevenths circ 10) /\
    run_deutsch_jozsa (simulator sevenths) (total parity) 2 10 = inr counts /\
    ~ In (all_zero 2) (map fst counts).
Proof.
  apply (parity_never_all_zero sevenths 10).
  - lia.
  - apply sevenths_uniform.
Defined.

(* ================================================================= *)
(** ** Part 5: further properties of the three functions *)

(** *** Sums over ranges *)

Lemma sumZ_zero (G : Z -> Z) (l : list Z) :
  (forall x, In x l -> G x = 0) -> sumZ (map G l) = 0.
Proof.
  induction l as [|a l IH]; intros HG; simpl; [reflexivity|].
  rewrite (HG a) by now left. rewrite IH; [reflexivity|].
  intros x Hx. apply HG. now right.
Qed.

Lemma sumZ_ext (F G : Z -> Z) (l : list Z) :
  (forall x, In x l -> F x = G x) -> sumZ (map F l) = sumZ (map G l).
Proof. intros H. f_equal. now apply map_ext_in. Qed.

Lemma sumZ_point (G : Z -> Z) (K b : Z) :
  0 <= b < K -> (forall i, 0 <= i < K -> i <> b -> G i = 0) ->
  sumZ (map G (range K)) = G b.
Proof.
  intros Hb HG.
  replace K with (b + (1 + (K - b - 1))) by lia.
  rewrite range_app, (range_app 1) by lia.
  change (range 1) with [0].
  rewrite !map_app, !sumZ_app, !map_map. unfold sumZ at 2.
  cbn [map fold_right].
  rewrite sumZ_zero, sumZ_zero.
  - replace (b + 0) with b by lia. lia.
  - intros x Hx. apply In_range in Hx. apply HG; lia.
  - intros x Hx. apply In_range in Hx. apply HG; lia.
Qed.

Lemma sumZ_opp (F : Z -> Z) (l : list Z) :
  sumZ (map (fun x => - F x) l) = - sumZ (map F l).
Proof. induction l as [|a l IH]; simpl; [reflexivity|]. rewrite IH. lia. Qed.

(** *** The measured register *)

Lemma register_value_bits (pairs : list (Z * Z)) (i j : Z) :
  Forall (fun p => 0 <= snd p) pairs ->
  Z.testbit (register_value pairs i) j =
  existsb (fun p => (snd p =? j) && Z.testbit i (fst p)) pairs.
Proof.
  induction 1 as [|[q c] pairs Hc _ IH]; simpl.
  - apply Z.testbit_0_l.
  - rewrite Z.lor_spec, IH. simpl in Hc.
    destruct (Z.testbit i q).
    + rewrite Z.pow2_bits_eqb by assumption.
      rewrite andb_true_r. apply orb_comm.
    + rewrite Z.testbit_0_l, andb_false_r. apply orb_comm.
Qed.

Lemma in_combine_same (l : list Z) (q c : Z) :
  In (q, c) (combine l l) -> q = c /\ In q l.
Proof.
  induction l as [|a l IH]; simpl; [intros []|].
  intros [He|Hin].
  - inversion He; subst. auto.
  - destruct (IH Hin). auto.
Qed.

Lemma combine_same_in (l : list Z) (q : Z) : In q l -> In (q, q) (combine l l).
Proof.
  induction l as [|a l IH]; simpl; [intros []|].
  intros [->|Hin]; auto.
Qed.

(** Measuring qubits [0 .. n-1] into classical bits [0 .. n-1] reads the
    input register of the basis index. *)
Lemma register_value_inputs (n i : Z) :
  0 <= n -> register_value (combine (range n) (range n)) i = i mod 2 ^ n.
Proof.
  intros Hn. apply Z.bits_inj'. intros j Hj.
  rewrite register_value_bits.
  - destruct (Z_lt_dec j n) as [Hlt|Hge].
    + rewrite Z.mod_pow2_bits_low by lia.
      destruct (Z.testbit i j) eqn:Hb.
      * apply existsb_exists. exists (j, j). split.
        -- apply combine_same_in, In_range. lia.
        -- simpl. now rewrite Z.eqb_refl, Hb.
      * apply not_true_is_false. intros Hex.
        apply existsb_exists in Hex. destruct Hex as [[q c] [Hin Hp]].
        apply in_combine_same in Hin. destruct Hin as [-> _].
        simpl in Hp. apply andb_true_iff in Hp. destruct Hp as [Hc Hq].
        apply Z.eqb_eq in Hc. subst. congruence.
    + rewrite Z.mod_pow2_bits_high by lia.
      apply not_true_is_false. intros Hex.
      apply existsb_exists in Hex. destruct Hex as [[q c] [Hin Hp]].
      apply in_combine_same in Hin. destruct Hin as [-> Hin].
      apply In_range in Hin.
      simpl in Hp. apply andb_true_iff in Hp. destruct Hp as [Hc _].
      apply Z.eqb_eq in Hc. lia.
  - apply Forall_forall. intros [q c] Hin.
    apply in_combine_same in Hin. destruct Hin as [-> Hin].
    apply In_range in Hin. simpl. lia.
Qed.

(** The weight of register value [b] is the weight of the two basis
    states with input register [b]: the ancilla is summed out. *)
Lemma outcome_weight_inputs (n : Z) (k : nat) (a : Z -> Z) (b : Z) :
  0 <= n -> 0 <= b < 2 ^ n ->
  outcome_weight (combine (range n) (range n))
                 (mkState (n + 1) k (tabulate (n + 1) a)) b =
  a b * a b + a (b + 2 ^ n) * a (b + 2 ^ n).
Proof.
  intros Hn Hb. unfold outcome_weight. cbn [qubit_count].
  replace (2 ^ (n + 1)) with (2 ^ n + 2 ^ n)
    by (rewrite Z.pow_add_r; lia).
  assert (Hpow : 2 ^ n + 2 ^ n = 2 ^ (n + 1)) by (rewrite Z.pow_add_r; lia).
  rewrite range_app, map_app, sumZ_app, map_map by lia.
  assert (Hterm : forall i, 0 <= i < 2 ^ (n + 1) ->
            (if register_value (combine (range n) (range n)) i =? b
             then amplitude_at (mkState (n + 1) k (tabulate (n + 1) a)) i *
                  amplitude_at (mkState (n + 1) k (tabulate (n + 1) a)) i
             else 0) = if i mod 2 ^ n =? b then a i * a i else 0).
  { intros i Hi. rewrite amplitude_at_tabulate by assumption.
    now rewrite register_value_inputs. }
  f_equal.
  - rewrite (sumZ_point _ _ b).
    + rewrite Hterm by lia. rewrite Z.mod_small, Z.eqb_refl by lia.
      reflexivity.
    + lia.
    + intros i Hi Hne. rewrite Hterm by lia. rewrite Z.mod_small by lia.
      destruct (Z.eqb_spec i b); [contradiction|reflexivity].
  - rewrite (sumZ_point _ _ b).
    + rewrite Hterm by lia.
      replace (2 ^ n + b) with (b + 1 * 2 ^ n) by lia.
      rewrite Z.mod_add, Z.mod_small, Z.eqb_refl by lia.
      replace (b + 1 * 2 ^ n) with (b + 2 ^ n) by lia. reflexivity.
    + lia.
    + intros i Hi Hne. rewrite Hterm by lia.
      replace (2 ^ n + i) with (i + 1 * 2 ^ n) by lia.
      rewrite Z.mod_add, Z.mod_small by lia.
      destruct (Z.eqb_spec i b); [contradiction|reflexivity].
Qed.

(** *** The second Hadamard layer on an arbitrary state *)

Lemma flip_clear (i q : Z) :
  0 <= q -> Z.testbit i q = false -> flip i q = i + 2 ^ q.
Proof.
  intros Hq Hb. unfold flip. symmetry. apply Z.add_nocarry_lxor.
  apply Z.bits_inj'. intros j Hj.
  rewrite Z.land_spec, Z.pow2_bits_eqb, Z.testbit_0_l by lia.
  destruct (Z.eqb_spec q j) as [<-|Hne].
  - now rewrite Hb.
  - apply andb_false_r.
Qed.

(** After Hadamards on qubits [0 .. q-1] the amplitude of an index whose
    low [q] bits are 0 is the sum of the old amplitudes over its block of
    [2^q] indices. *)
Lemma hadamard_block_sum (N : Z) (a : Z -> Z) (k : nat) (q : Z) :
  0 <= q <= N ->
  exists b,
    run_gates (map HGate (range q)) (mkState N k (tabulate N a)) =
    mkState N (k + Z.to_nat q) (tabulate N b) /\
    forall i, 0 <= i < 2 ^ N -> i mod 2 ^ q = 0 ->
              b i = sumZ (map (fun j => a (i + j)) (range (2 ^ q))).
Proof.
  intros [Hq0 HqN]. revert HqN.
  pattern q. apply natlike_ind; [| |exact Hq0]; clear q Hq0.
  - intros _. exists a. split.
    + simpl. f_equal. lia.
    + intros i _ _. change (range (2 ^ 0)) with [0]. simpl.
      replace (i + 0) with i by lia. lia.
  - intros q Hq0 IH HqN. unfold Z.succ in *.
    destruct (IH ltac:(lia)) as (b & Hrun & Hb).
    exists (fun i => if Z.testbit i q
                     then b (flip i q) - b i
                     else b i + b (flip i q)).
    split.
    + rewrite range_succ, map_app, run_gates_app, Hrun by lia.
      change (run_gates (map HGate [q]) ?s) with (apply_gate (HGate q) s).
      rewrite apply_h_tabulate by lia. f_equal. lia.
    + intros i Hi Hmod.
      assert (Hp : 0 < 2 ^ q) by (apply Z.pow_pos_nonneg; lia).
      assert (Hm : 0 <= i mod 2 ^ q) by (apply Z.mod_pos_bound; lia).
      rewrite mod_pow2_succ in Hmod by lia.
      destruct (Z.testbit i q) eqn:Hbit; cbn [Z.b2z] in Hmod; [nia|].
      assert (Hlow : i mod 2 ^ q = 0) by lia.
      pose proof (flip_range N i q ltac:(lia) Hi) as Hfr.
      rewrite flip_clear in * by assumption.
      rewrite !Hb; auto.
      * replace (2 ^ (q + 1)) with (2 ^ q + 2 ^ q)
          by (rewrite Z.pow_add_r; lia).
        rewrite range_app, map_app, sumZ_app, map_map by lia.
        f_equal. apply sumZ_ext. intros j _. f_equal. lia.
      * replace (i + 2 ^ q) with (i + 1 * 2 ^ q) by lia.
        now rewrite Z.mod_add by lia.
Qed.

(** *** The all-zero outcome for an arbitrary function *)

Lemma sign_low (n j : Z) : 0 <= n -> 0 <= j < 2 ^ n -> sign n j = 1.
Proof.
  intros Hn Hj. unfold sign. now rewrite (testbit_high n j n) by lia.
Qed.

Lemma sign_high (n j : Z) : 0 <= n -> 0 <= j < 2 ^ n -> sign n (2 ^ n + j) = -1.
Proof.
  intros Hn Hj. unfold sign.
  replace (Z.testbit (2 ^ n + j) n) with true; [reflexivity|].
  symmetry. rewrite Z.testbit_eqb by lia.
  replace (2 ^ n + j) with (j + 1 * 2 ^ n) by lia.
  rewrite Z.div_add, Z.div_small by lia. reflexivity.
Qed.

(** Final state of the whole pipeline at the two indices with input
    register 0. *)
Lemma final_amplitudes_zero (g : Z -> Z) (n : Z) :
  0 <= n ->
  exists b,
    final_state (dj_layout n (oracle_gates g n (range (2 ^ n)))) =
    mkState (n + 1) (Z.to_nat (n + 1) + Z.to_nat n) (tabulate (n + 1) b) /\
    b 0 = phase_sum g n /\ b (2 ^ n) = - phase_sum g n.
Proof.
  intros Hn. unfold final_state, dj_layout. cbn [data num_qubits].
  rewrite !app_assoc, run_gates_app, run_gates_app.
  rewrite <- !app_assoc, state_after_oracle by assumption.
  destruct (hadamard_block_sum (n + 1)
              (fun i => (if g (i mod 2 ^ n) mod 2 =? 1 then -1 else 1)
                        * sign n i)
              (Z.to_nat (n + 1)) n ltac:(lia)) as (b & Hrun & Hb).
  exists b. rewrite Hrun.
  assert (Hp : 0 < 2 ^ n) by (apply Z.pow_pos_nonneg; lia).
  assert (Hpow : 2 ^ (n + 1) = 2 * 2 ^ n) by (rewrite Z.pow_add_r; lia).
  split; [reflexivity|]. split.
  - rewrite Hb by (try apply Z.mod_0_l; lia).
    unfold phase_sum. apply sumZ_ext. intros j Hj. apply In_range in Hj.
    cbn [Z.add]. rewrite (Z.mod_small j), sign_low by lia. unfold phase.
    destruct (g j mod 2 =? 1); reflexivity.
  - rewrite Hb by (try apply Z.mod_same; lia).
    unfold phase_sum. rewrite <- sumZ_opp.
    apply sumZ_ext. intros j Hj. apply In_range in Hj.
    rewrite sign_high by lia.
    replace (2 ^ n + j) with (j + 1 * 2 ^ n) by lia.
    rewrite Z.mod_add, (Z.mod_small j) by lia. unfold phase.
    destruct (g j mod 2 =? 1); reflexivity.
Qed.

Lemma measured_dj_layout (n : Z) (gs : list Gate) :
  Forall classical_gate gs ->
  measured (data (dj_layout n gs)) = combine (range n) (range n).
Proof.
  intros Hc. unfold dj_layout. cbn [data].
  rewrite !measured_app, !measured_hadamards, (measured_classical gs Hc).
  simpl. now rewrite app_nil_r.
Qed.

(** Weight of the all-zero outcome of the pipeline: twice the square of
    the phase sum, over [2 ^ (2n + 1)]. *)
Lemma all_zero_weight (g : Z -> Z) (n : Z) :
  0 <= n ->
  let circ := dj_layout n (oracle_gates g n (range (2 ^ n))) in
  outcome_weight (measured (data circ)) (final_state circ) 0 =
  2 * (phase_sum g n * phase_sum g n) /\
  hadamards (final_state circ) = (Z.to_nat (n + 1) + Z.to_nat n)%nat.
Proof.
  intros Hn circ. subst circ.
  destruct (final_amplitudes_zero g n Hn) as (b & Hfs & Hb0 & Hb1).
  rewrite measured_dj_layout by apply oracle_gates_classical.
  rewrite Hfs. cbn [hadamards]. split; [|reflexivity].
  assert (Hp : 0 < 2 ^ n) by (apply Z.pow_pos_nonneg; lia).
  rewrite outcome_weight_inputs by lia.
  cbn [Z.add]. rewrite Hb0, Hb1. ring.
Qed.

Lemma build_then_circuit (g : Z -> Z) (n : Z) :
  1 <= n ->
  (oracle <- build_oracle_from_function (total g) n ;;
   deutsch_jozsa_circuit oracle) =
  inr (dj_layout n (oracle_gates g n (range (2 ^ n)))).
Proof.
  intros Hn. rewrite build_oracle_total by assumption. cbn [bind].
  rewrite (deutsch_jozsa_circuit_layout _ n); auto; try (simpl; lia).
  unfold wf_circuit. cbn [data num_qubits]. apply oracle_gates_wf. lia.
Qed.

Lemma all_zero_probability (g : Z -> Z) (n : Z) :
  0 <= n ->
  (outcome_probability (dj_layout n (oracle_gates g n (range (2 ^ n)))) 0%Z ==
   (phase_sum g n * phase_sum g n) # Z.to_pos (4 ^ n))%Q.
Proof.
  intros Hn. unfold outcome_probability. cbv zeta.
  destruct (all_zero_weight g n Hn) as [Hw Hh]. cbv zeta in Hw, Hh.
  rewrite Hw, Hh. unfold Qeq. cbn [Qnum Qden].
  assert (Hp : 0 < 2 ^ n) by (apply Z.pow_pos_nonneg; lia).
  rewrite !Z2Pos.id by (apply Z.pow_pos_nonneg; lia).
  rewrite Nat2Z.inj_add, !Z2Nat.id by lia.
  rewrite !Z.pow_add_r, Z.pow_1_r by lia.
  change 4 with (2 * 2). rewrite Z.pow_mul_l. ring.
Qed.

(** *** Counting the odd inputs *)

Lemma phase_sum_count (g : Z -> Z) (l : list Z) :
  sumZ (map (phase g) l) =
  Z.of_nat (List.length l)
  - 2 * Z.of_nat (List.length (filter (fun x => g x mod 2 =? 1) l)).
Proof.
  induction l as [|x l IH]; [reflexivity|].
  cbn [map sumZ fold_right filter List.length].
  fold (sumZ (map (phase g) l)). rewrite IH. unfold phase.
  destruct (g x mod 2 =? 1); cbn [List.length]; lia.
Qed.

Lemma phase_sum_odd_inputs (g : Z -> Z) (n : Z) :
  0 <= n ->
  phase_sum g n = 2 ^ n - 2 * Z.of_nat (List.length (odd_inputs g n)).
Proof.
  intros Hn. unfold phase_sum, odd_inputs.
  rewrite phase_sum_count, range_length.
  rewrite Z2Nat.id by (apply Z.pow_nonneg; lia). reflexivity.
Qed.

Lemma odd_inputs_bound (g : Z -> Z) (n : Z) :
  0 <= n -> 0 <= Z.of_nat (List.length (odd_inputs g n)) <= 2 ^ n.
Proof.
  intros Hn. unfold odd_inputs. split; [lia|].
  pose proof (filter_length_le (fun x => g x mod 2 =? 1) (range (2 ^ n))) as H.
  rewrite range_length in H.
  assert (0 <= 2 ^ n) by (apply Z.pow_nonneg; lia). lia.
Qed.

Lemma filter_none {A : Type} (p : A -> bool) (l : list A) :
  List.length (filter p l) = 0%nat -> forall x, In x l -> p x = false.
Proof.
  induction l as [|a l IH]; simpl; [intros _ x []|].
  destruct (p a) eqn:Ha; simpl; [discriminate|].
  intros Hl x [<-|Hx]; auto.
Qed.

Lemma filter_all {A : Type} (p : A -> bool) (l : list A) :
  List.length (filter p l) = List.length l -> forall x, In x l -> p x = true.
Proof.
  induction l as [|a l IH]; simpl; [intros _ x []|].
  pose proof (filter_length_le p l) as Hle.
  destruct (p a) eqn:Ha; simpl.
  - intros Hl x [<-|Hx]; auto.
  - intros Hl. lia.
Qed.

Lemma filter_length_none {A : Type} (p : A -> bool) (l : list A) :
  (forall x, In x l -> p x = false) -> List.length (filter p l) = 0%nat.
Proof.
  induction l as [|a l IH]; simpl; [reflexivity|]. intros H.
  rewrite (H a) by now left. apply IH. intros x Hx. apply H. now right.
Qed.

Lemma filter_length_all {A : Type} (p : A -> bool) (l : list A) :
  (forall x, In x l -> p x = true) ->
  List.length (filter p l) = List.length l.
Proof.
  induction l as [|a l IH]; simpl; [reflexivity|]. intros H.
  rewrite (H a) by now left. simpl. f_equal. apply IH.
  intros x Hx. apply H. now right.
Qed.

(** *** Outcomes that cannot be drawn *)

Lemma pick_in (p : Z -> Q) (l : list Z) (u : Q) :
  l <> [] -> In (pick p l u) l.
Proof.
  revert u. induction l as [|b l IH]; intros u Hne; [contradiction|].
  destruct l as [|b' l']; [now left|].
  change (pick p (b :: b' :: l') u)
    with (if Qle_bool (p b) u then pick p (b' :: l') (u - p b)%Q else b).
  destruct (Qle_bool (p b) u); [right; apply IH; discriminate|now left].
Qed.

Lemma pick_impossible (p : Z -> Q) (K : Z) (u : Q) :
  2 <= K -> (p 0%Z == 0)%Q -> (0 <= u)%Q ->
  0 < pick p (range K) u < K.
Proof.
  intros HK Hp Hu.
  pose proof (NoDup_range K) as Hnd.
  assert (Hall : forall x, In x (range K) -> 0 <= x < K)
    by (intros x Hx; now apply In_range).
  destruct (range_two K HK) as [tail Hr]. rewrite Hr in *.
  change (pick p (0 :: 1 :: tail) u)
    with (if Qle_bool (p 0) u then pick p (1 :: tail) (u - p 0%Z)%Q else 0).
  replace (Qle_bool (p 0) u) with true
    by (symmetry; apply Qle_bool_iff; now rewrite Hp).
  pose proof (pick_in p (1 :: tail) (u - p 0%Z)%Q ltac:(discriminate)) as Hin.
  inversion Hnd as [|? ? Hnot _]; subst.
  pose proof (Hall _ (or_intror Hin)) as Hb.
  assert (pick p (1 :: tail) (u - p 0%Z)%Q <> 0) by (intros He; now rewrite He in Hin).
  lia.
Qed.

Lemma has_one_all_zero (n : Z) : has_one (all_zero n) = false.
Proof.
  unfold all_zero. induction (Z.to_nat n) as [|m IH]; [reflexivity|].
  simpl. exact IH.
Qed.

Lemma has_one_bitstring (n b : Z) :
  has_one (bitstring n b) = existsb (Z.testbit b) (range n).
Proof.
  unfold bitstring.
  assert (Hgen : forall l acc,
    has_one (fold_left
               (fun acc k => String (if Z.testbit b k then "1" else "0")%char acc)
               l acc) = existsb (Z.testbit b) l || has_one acc).
  { induction l as [|k l IH]; intros acc; [reflexivity|].
    cbn [fold_left existsb]. rewrite IH. cbn [has_one].
    destruct (Z.testbit b k); simpl.
    - now rewrite orb_true_r.
    - reflexivity. }
  rewrite Hgen. simpl. apply orb_false_r.
Qed.

Lemma bitstring_nonzero (n b : Z) :
  0 <= n -> 0 < b < 2 ^ n -> bitstring n b <> all_zero n.
Proof.
  intros Hn Hb Heq.
  assert (Hone : has_one (bitstring n b) = false)
    by (rewrite Heq; apply has_one_all_zero).
  rewrite has_one_bitstring in Hone.
  assert (Hz : b = 0).
  { apply Z.bits_inj'. intros j Hj. rewrite Z.testbit_0_l.
    destruct (Z_lt_dec j n) as [Hlt|Hge].
    - destruct (Z.testbit b j) eqn:Hbit; [|reflexivity].
      assert (Hex : existsb (Z.testbit b) (range n) = true).
      { apply existsb_exists. exists j. split; [apply In_range; lia|assumption]. }
      congruence.
    - apply (testbit_high n); lia. }
  lia.
Qed.

(** *** The synthesis loop for a function that may raise *)

Lemma oracle_loop_success (f : Z -> result Z) (n : Z) (xs : list Z) :
  forall qc qc',
    oracle_loop f n xs qc = inr qc' ->
    (forall x, In x xs -> exists v, f x = inr v) /\
    qc' = mkCircuit (num_qubits qc) (num_clbits qc)
                    (data qc ++ oracle_gates (value_of f) n xs).
Proof.
  induction xs as [|x xs IH]; intros qc qc' Hloop; simpl in Hloop.
  - inversion Hloop; subst. split; [intros x []|].
    simpl. rewrite app_nil_r. now destruct qc'.
  - destruct (f x) as [e|v] eqn:Hfx; simpl in Hloop; [discriminate|].
    assert (Hval : value_of f x = v) by (unfold value_of; now rewrite Hfx).
    destruct (v mod 2 =? 1) eqn:Hodd.
    + destruct (oracle_term n x qc) as [e|qc1] eqn:Hterm;
        simpl in Hloop; [discriminate|].
      apply oracle_term_returned in Hterm. subst qc1.
      apply IH in Hloop. destruct Hloop as [Hall Hqc]. split.
      * intros y [<-|Hy]; eauto.
      * rewrite Hqc. simpl. rewrite Hval, Hodd. now rewrite <- app_assoc.
    + simpl in Hloop. apply IH in Hloop. destruct Hloop as [Hall Hqc]. split.
      * intros y [<-|Hy]; eauto.
      * rewrite Hqc. simpl. now rewrite Hval, Hodd.
Qed.

Lemma oracle_loop_value_of (f : Z -> result Z) (n : Z) (xs : list Z)
      (qc : QuantumCircuit) :
  (forall x, In x xs -> exists v, f x = inr v) ->
  oracle_loop f n xs qc = oracle_loop (total (value_of f)) n xs qc.
Proof.
  revert qc. induction xs as [|x xs IH]; intros qc Hall; [reflexivity|].
  simpl. destruct (Hall x (or_introl eq_refl)) as [v Hv].
  assert (Hval : value_of f x = v) by (unfold value_of; now rewrite Hv).
  unfold total at 1. rewrite Hv, Hval. simpl.
  destruct (if v mod 2 =? 1 then oracle_term n x qc else ret qc) as [e|qc1];
    simpl; [reflexivity|].
  apply IH. intros y Hy. apply Hall. now right.
Qed.

Lemma oracle_loop_ext (f f' : Z -> result Z) (n : Z) (xs : list Z)
      (qc : QuantumCircuit) :
  (forall x, In x xs -> f x = f' x) ->
  oracle_loop f n xs qc = oracle_loop f' n xs qc.
Proof.
  revert qc. induction xs as [|x xs IH]; intros qc Hext; [reflexivity|].
  simpl. rewrite <- (Hext x) by now left.
  destruct (f x) as [e|v]; [reflexivity|]. simpl.
  destruct (if v mod 2 =? 1 then oracle_term n x qc else ret qc) as [e|qc1];
    simpl; [reflexivity|].
  apply IH. intros y Hy. apply Hext. now right.
Qed.

Lemma build_oracle_nonneg (f : Z -> result Z) (n : Z) :
  0 <= n ->
  build_oracle_from_function f n =
  oracle_loop f n (range (2 ^ n)) (mkCircuit (n + 1) 0 []).
Proof.
  intros Hn. unfold build_oracle_from_function, new_circuit, range_pow2.
  replace (n + 1 <? 0) with false by lia.
  replace (n <? 0) with false by lia. reflexivity.
Qed.

Lemma build_oracle_negative (f : Z -> result Z) (n : Z) :
  n < 0 ->
  build_oracle_from_function f n = inl CircuitError \/
  build_oracle_from_function f n = inl TypeError.
Proof.
  intros Hn. unfold build_oracle_from_function, new_circuit, range_pow2.
  destruct (Z.ltb_spec (n + 1) 0); simpl; [now left|].
  right. replace (n <? 0) with true by lia. reflexivity.
Qed.

(** *** Counting gates *)

Lemma encode_gates_length (n x : Z) :
  List.length (encode_gates n x) = List.length (zero_bits n x).
Proof.
  unfold encode_gates, zero_bits. rewrite length_map. f_equal.
  apply filter_ext_in. intros i Hi. apply In_range in Hi.
  apply pattern_bit. lia.
Qed.

Lemma encode_gates_no_mcx (n x : Z) : filter is_mcx (encode_gates n x) = [].
Proof.
  unfold encode_gates.
  induction (filter _ (range n)) as [|i l IH]; simpl; auto.
Qed.

Lemma term_gates_length (n x : Z) :
  Z.of_nat (List.length (term_gates n x)) =
  2 * Z.of_nat (List.length (zero_bits n x)) + 1.
Proof.
  unfold term_gates. rewrite !length_app, !encode_gates_length.
  cbn [List.length]. lia.
Qed.

Lemma term_gates_one_mcx (n x : Z) :
  filter is_mcx (term_gates n x) = [MCXGate (range n) n].
Proof.
  unfold term_gates. rewrite !filter_app, !encode_gates_no_mcx. reflexivity.
Qed.

Lemma oracle_gates_counts (g : Z -> Z) (n : Z) (xs : list Z) :
  filter is_mcx (oracle_gates g n xs) =
  map (fun _ => MCXGate (range n) n) (filter (fun x => g x mod 2 =? 1) xs) /\
  Z.of_nat (List.length (oracle_gates g n xs)) =
  sumZ (map (fun x => 2 * Z.of_nat (List.length (zero_bits n x)) + 1)
            (filter (fun x => g x mod 2 =? 1) xs)).
Proof.
  induction xs as [|x xs [IH1 IH2]]; [split; reflexivity|].
  cbn [oracle_gates flat_map filter]. fold (oracle_gates g n xs).
  rewrite filter_app, length_app, Nat2Z.inj_add, IH1, IH2.
  destruct (g x mod 2 =? 1).
  - rewrite term_gates_one_mcx, term_gates_length. split; reflexivity.
  - split; reflexivity.
Qed.

Lemma build_oracle_success (f : Z -> result Z) (n : Z) (oracle : QuantumCircuit) :
  build_oracle_from_function f n = inr oracle ->
  0 <= n /\
  (forall x, 0 <= x < 2 ^ n -> exists v, f x = inr v) /\
  oracle = mkCircuit (n + 1) 0 (oracle_gates (value_of f) n (range (2 ^ n))).
Proof.
  intros Hb. destruct (Z_lt_dec n 0) as [Hneg|Hnn].
  - destruct (build_oracle_negative f n Hneg) as [He|He]; congruence.
  - rewrite build_oracle_nonneg in Hb by lia.
    apply oracle_loop_success in Hb. destruct Hb as [Hall Ho].
    split; [lia|]. split; [|exact Ho].
    intros x Hx. apply Hall. now apply In_range.
Qed.

Lemma oracle_gates_shape (g : Z -> Z) (n : Z) (xs : list Z) :
  Forall (fun gate => (exists q, 0 <= q < n /\ gate = XGate q) \/
                      gate = MCXGate (range n) n)
         (oracle_gates g n xs).
Proof.
  assert (Henc : forall x,
             Forall (fun gate => (exists q, 0 <= q < n /\ gate = XGate q) \/
                                 gate = MCXGate (range n) n)
                    (encode_gates n x)).
  { intros x. unfold encode_gates. apply Forall_forall. intros gate Hin.
    apply in_map_iff in Hin. destruct Hin as [q [<- Hq]].
    apply filter_In in Hq. destruct Hq as [Hq _]. apply In_range in Hq.
    left. eauto. }
  induction xs as [|x xs IH]; simpl; [constructor|].
  apply Forall_app. split; [|exact IH].
  destruct (g x mod 2 =? 1); [|constructor].
  unfold term_gates. apply Forall_app. split; [apply Henc|].
  apply Forall_app. split; [|apply Henc].
  constructor; [now right|constructor].
Qed.

(* ----------------------------------------------------------------- *)
(** *** Properties of [build_oracle_from_function] *)

(** X1.  For [n >= 1] the synthesis returns an oracle exactly when [f]
    returns on every input of [0, 2^n); the oracle then has [n + 1]
    qubits, no classical bit, and for each [x] in increasing order with
    [f x] odd the gates X on the zero bits of [x], the multi-controlled
    X, and the same X gates again. *)
Theorem oracle_returned_iff (f : Z -> result Z) (n : Z) (oracle : QuantumCircuit) :
  1 <= n ->
  (build_oracle_from_function f n = inr oracle <->
   (forall x, 0 <= x < 2 ^ n -> exists v, f x = inr v) /\
   oracle = mkCircuit (n + 1) 0 (oracle_gates (value_of f) n (range (2 ^ n)))).
Proof.
  intros Hn. split.
  - intros Hb. apply build_oracle_success in Hb. tauto.
  - intros (Hall & ->).
    rewrite build_oracle_nonneg, oracle_loop_value_of by
      (try lia; intros x Hx; apply Hall; now apply In_range).
    now rewrite oracle_loop_total.
Qed.

Lemma oracle_returned_iff_witness :
  build_oracle_from_function (total parity) 2 =
  inr (mkCircuit 3 0 [XGate 1; MCXGate [0; 1] 2; XGate 1;
                      XGate 0; MCXGate [0; 1] 2; XGate 0]) <->
  (forall x, 0 <= x < 2 ^ 2 -> exists v, total parity x = inr v) /\
  mkCircuit 3 0 [XGate 1; MCXGate [0; 1] 2; XGate 1;
                 XGate 0; MCXGate [0; 1] 2; XGate 0] =
  mkCircuit (2 + 1) 0 (oracle_gates (value_of (total parity)) 2 (range (2 ^ 2))).
Proof.
  apply (oracle_returned_iff (total parity) 2
           (mkCircuit 3 0 [XGate 1; MCXGate [0; 1] 2; XGate 1;
                           XGate 0; MCXGate [0; 1] 2; XGate 0])).
  lia.
Defined.

(** X2.  Every instruction of a returned oracle is an X on an input
    qubit or the multi-controlled X with controls [0 .. n-1] and target
    [n]: the oracle holds no Hadamard and no measurement, and the ancilla
    is only ever the target of the controlled gate. *)
Theorem oracle_instruction_shape (f : Z -> result Z) (n : Z)
        (oracle : QuantumCircuit) :
  build_oracle_from_function f n = inr oracle ->
  num_qubits oracle = n + 1 /\ num_clbits oracle = 0 /\
  Forall (fun gate => (exists q, 0 <= q < n /\ gate = XGate q) \/
                      gate = MCXGate (range n) n)
         (data oracle).
Proof.
  intros Hb. apply build_oracle_success in Hb. destruct Hb as (_ & _ & ->).
  repeat split. apply oracle_gates_shape.
Qed.

Lemma oracle_instruction_shape_witness :
  num_qubits (mkCircuit 2 0 [MCXGate [0] 1]) = 1 + 1 /\
  num_clbits (mkCircuit 2 0 [MCXGate [0] 1]) = 0 /\
  Forall (fun gate => (exists q, 0 <= q < 1 /\ gate = XGate q) \/
                      gate = MCXGate (range 1) 1)
         (data (mkCircuit 2 0 [MCXGate [0] 1])).
Proof.
  apply (oracle_instruction_shape (total (fun x => x)) 1
           (mkCircuit 2 0 [MCXGate [0] 1])).
  reflexivity.
Defined.

(** X3.  The gates appended for one pattern [x] (encode, multi-controlled
    X, uncompute) flip the ancilla of exactly the basis states whose
    input register is [x] and leave every other basis state as it is. *)
Theorem term_fires_on_pattern (n x i : Z) :
  1 <= n -> 0 <= x < 2 ^ n -> 0 <= i < 2 ^ (n + 1) ->
  exists qc,
    oracle_term n x (mkCircuit (n + 1) 0 []) = inr qc /\
    run_gates (data qc) (basis_state (n + 1) i) =
    basis_state (n + 1) (if i mod 2 ^ n =? x then flip i n else i).
Proof.
  intros Hn Hx Hi. rewrite oracle_term_spec by assumption.
  eexists. split; [reflexivity|]. cbn [data app].
  rewrite run_classical_basis
    by (auto using term_gates_classical; apply term_gates_wf; lia).
  now rewrite term_classical by lia.
Qed.

Lemma term_fires_on_pattern_witness :
  exists qc,
    oracle_term 2 1 (mkCircuit (2 + 1) 0 []) = inr qc /\
    run_gates (data qc) (basis_state (2 + 1) 5) =
    basis_state (2 + 1) (if 5 mod 2 ^ 2 =? 1 then flip 5 2 else 5).
Proof.
  apply (term_fires_on_pattern 2 1 5).
  - lia.
  - change (2 ^ 2) with 4. lia.
  - change (2 ^ (2 + 1)) with 8. lia.
Defined.

(** X4.  For any integer-valued total [g] and [n >= 1], the oracle maps
    each basis state to the basis state with the same input register and
    the ancilla flipped exactly when [g] is odd on that input
    register. *)
Theorem oracle_action_any_integer (g : Z -> Z) (n i : Z) :
  1 <= n -> 0 <= i < 2 ^ (n + 1) ->
  exists oracle j,
    build_oracle_from_function (total g) n = inr oracle /\
    run_gates (data oracle) (basis_state (n + 1) i) = basis_state (n + 1) j /\
    j = (if g (i mod 2 ^ n) mod 2 =? 1 then flip i n else i) /\
    j mod 2 ^ n = i mod 2 ^ n /\ 0 <= j < 2 ^ (n + 1).
Proof.
  intros Hn Hi.
  exists (mkCircuit (n + 1) 0 (oracle_gates g n (range (2 ^ n)))).
  exists (if g (i mod 2 ^ n) mod 2 =? 1 then flip i n else i).
  split; [apply build_oracle_total; lia|]. cbn [data].
  split.
  { rewrite run_classical_basis
      by (auto using oracle_gates_classical; apply oracle_gates_wf; lia).
    now rewrite oracle_classical by lia. }
  split; [reflexivity|].
  destruct (g (i mod 2 ^ n) mod 2 =? 1).
  - split; [apply flip_mod; lia|apply flip_range; lia].
  - split; [reflexivity|assumption].
Qed.

Lemma oracle_action_any_integer_witness :
  exists oracle j,
    build_oracle_from_function (total (fun x => 3 * x - 5)) 2 = inr oracle /\
    run_gates (data oracle) (basis_state (2 + 1) 6) = basis_state (2 + 1) j /\
    j = (if (3 * (6 mod 2 ^ 2) - 5) mod 2 =? 1 then flip 6 2 else 6) /\
    j mod 2 ^ 2 = 6 mod 2 ^ 2 /\ 0 <= j < 2 ^ (2 + 1).
Proof.
  apply (oracle_action_any_integer (fun x => 3 * x - 5) 2 6).
  - lia.
  - change (2 ^ (2 + 1)) with 8. lia.
Defined.

(** X5.  The oracle is its own inverse: its gate sequence applied twice
    returns every amplitude vector of [n + 1] qubits unchanged. *)
Theorem oracle_twice_identity (g : Z -> Z) (n : Z) (k : nat) (a : Z -> Z) :
  1 <= n ->
  exists oracle,
    build_oracle_from_function (total g) n = inr oracle /\
    run_gates (data oracle)
      (run_gates (data oracle) (mkState (n + 1) k (tabulate (n + 1) a))) =
    mkState (n + 1) k (tabulate (n + 1) a).
Proof.
  intros Hn.
  exists (mkCircuit (n + 1) 0 (oracle_gates g n (range (2 ^ n)))).
  split; [apply build_oracle_total; lia|]. cbn [data].
  rewrite !run_classical_tabulate
    by (auto using oracle_gates_classical; apply oracle_gates_wf; lia).
  f_equal. apply tabulate_ext. intros i _.
  rewrite (oracle_pullback g n i) by lia.
  destruct (g (i mod 2 ^ n) mod 2 =? 1) eqn:Hg;
    rewrite oracle_pullback by lia.
  - rewrite flip_mod, Hg by lia. now rewrite flip_involutive.
  - now rewrite Hg.
Qed.

Lemma oracle_twice_identity_witness :
  exists oracle,
    build_oracle_from_function (total parity) 2 = inr oracle /\
    run_gates (data oracle)
      (run_gates (data oracle)
         (mkState (2 + 1) 0 (tabulate (2 + 1) (fun i => i * i)))) =
    mkState (2 + 1) 0 (tabulate (2 + 1) (fun i => i * i)).
Proof. apply (oracle_twice_identity parity 2 0 (fun i => i * i)). lia. Defined.

(** X6.  The oracle holds one multi-controlled X per input on which [g]
    is odd, and its length is the sum over those inputs [x] of twice the
    number of zero bits of [x] plus one. *)
Theorem oracle_gate_count (g : Z -> Z) (n : Z) :
  1 <= n ->
  exists oracle,
    build_oracle_from_function (total g) n = inr oracle /\
    filter is_mcx (data oracle) =
    map (fun _ => MCXGate (range n) n) (odd_inputs g n) /\
    Z.of_nat (List.length (data oracle)) =
    sumZ (map (fun x => 2 * Z.of_nat (List.length (zero_bits n x)) + 1)
              (odd_inputs g n)).
Proof.
  intros Hn.
  exists (mkCircuit (n + 1) 0 (oracle_gates g n (range (2 ^ n)))).
  split; [apply build_oracle_total; lia|]. cbn [data].
  apply oracle_gates_counts.
Qed.

Lemma oracle_gate_count_witness :
  exists oracle,
    build_oracle_from_function (total parity) 2 = inr oracle /\
    filter is_mcx (data oracle) =
    map (fun _ => MCXGate (range 2) 2) (odd_inputs parity 2) /\
    Z.of_nat (List.length (data oracle)) =
    sumZ (map (fun x => 2 * Z.of_nat (List.length (zero_bits 2 x)) + 1)
              (odd_inputs parity 2)).
Proof. apply (oracle_gate_count parity 2). lia. Defined.

(* ----------------------------------------------------------------- *)
(** *** Properties of the pipeline *)

Lemma final_state_tabulated (g : Z -> Z) (n : Z) :
  0 <= n ->
  exists b k,
    final_state (dj_layout n (oracle_gates g n (range (2 ^ n)))) =
    mkState (n + 1) k (tabulate (n + 1) b).
Proof.
  intros Hn. destruct (final_amplitudes_zero g n Hn) as (b & Hfs & _).
  eauto.
Qed.

(** X7.  Phase kickback: after X on the ancilla, the Hadamards on all
    qubits and the oracle, [n + 1] Hadamards have been applied and the
    amplitude numerator of index [i] is the sign of its ancilla bit,
    negated where [g] is odd on the input register of [i]. *)
Theorem phase_kickback (g : Z -> Z) (n : Z) :
  1 <= n ->
  exists oracle,
    build_oracle_from_function (total g) n = inr oracle /\
    run_gates ([XGate n] ++ map HGate (range (n + 1)) ++ data oracle)
              (initialize (n + 1)) =
    mkState (n + 1) (Z.to_nat (n + 1))
      (tabulate (n + 1) (fun i => phase g (i mod 2 ^ n) * sign n i)).
Proof.
  intros Hn.
  exists (mkCircuit (n + 1) 0 (oracle_gates g n (range (2 ^ n)))).
  split; [apply build_oracle_total; lia|]. cbn [data].
  apply state_after_oracle. lia.
Qed.

Lemma phase_kickback_witness :
  exists oracle,
    build_oracle_from_function (total parity) 2 = inr oracle /\
    run_gates ([XGate 2] ++ map HGate (range (2 + 1)) ++ data oracle)
              (initialize (2 + 1)) =
    mkState (2 + 1) (Z.to_nat (2 + 1))
      (tabulate (2 + 1) (fun i => phase parity (i mod 2 ^ 2) * sign 2 i)).
Proof. apply (phase_kickback parity 2). lia. Defined.

(** X8.  For every integer-valued total [g] and [n >= 1] the pipeline
    gives the all-zero register value the probability
    [(sum over x of (-1)^(g x))^2 / 4^n], where the sum is [2^n] minus
    twice the number of inputs on which [g] is odd. *)
Theorem all_zero_probability_formula (g : Z -> Z) (n : Z) :
  1 <= n ->
  exists circ,
    (oracle <- build_oracle_from_function (total g) n ;;
     deutsch_jozsa_circuit oracle) = inr circ /\
    (outcome_probability circ 0%Z ==
     (phase_sum g n * phase_sum g n) # Z.to_pos (4 ^ n))%Q /\
    phase_sum g n = 2 ^ n - 2 * Z.of_nat (List.length (odd_inputs g n)).
Proof.
  intros Hn. exists (dj_layout n (oracle_gates g n (range (2 ^ n)))).
  split; [apply build_then_circuit; lia|].
  split; [apply all_zero_probability; lia|].
  apply phase_sum_odd_inputs. lia.
Qed.

Lemma all_zero_probability_formula_witness :
  exists circ,
    (oracle <- build_oracle_from_function (total two_of_eight) 3 ;;
     deutsch_jozsa_circuit oracle) = inr circ /\
    (outcome_probability circ 0%Z ==
     (phase_sum two_of_eight 3 * phase_sum two_of_eight 3)
       # Z.to_pos (4 ^ 3))%Q /\
    phase_sum two_of_eight 3 =
    2 ^ 3 - 2 * Z.of_nat (List.length (odd_inputs two_of_eight 3)).
Proof. apply (all_zero_probability_formula two_of_eight 3). lia. Defined.

(** X9.  For [n >= 1] and any [g] that is odd on exactly half of the
    inputs, the all-zero register value has probability 0; with uniform
    draws in [0, 1) and at least one shot it is never sampled and the
    returned counts have no entry for the all-zero bitstring. *)
Theorem balanced_never_all_zero (g : Z -> Z) (n : Z) (rng : nat -> Q)
        (shots : Z) :
  1 <= n -> balanced g n -> 1 <= shots ->
  (forall j, (0 <= rng j)%Q /\ (rng j < 1)%Q) ->
  exists circ counts,
    (oracle <- build_oracle_from_function (total g) n ;;
     deutsch_jozsa_circuit oracle) = inr circ /\
    (outcome_probability circ 0%Z == 0)%Q /\
    ~ In (all_zero n) (sample rng circ shots) /\
    run_deutsch_jozsa (simulator rng) (total g) n shots = inr counts /\
    ~ In (all_zero n) (map fst counts).
Proof.
  intros Hn Hbal Hs Hrng.
  set (circ := dj_layout n (oracle_gates g n (range (2 ^ n)))).
  assert (HS : phase_sum g n = 0).
  { rewrite phase_sum_odd_inputs by lia. unfold balanced in Hbal. lia. }
  assert (Hp : (outcome_probability circ 0%Z == 0)%Q).
  { unfold circ. rewrite all_zero_probability by lia. rewrite HS.
    reflexivity. }
  assert (Hsample : ~ In (all_zero n) (sample rng circ shots)).
  { unfold sample. intros Hin. apply in_map_iff in Hin.
    destruct Hin as [j [Hj _]]. revert Hj.
    change (num_clbits circ) with n.
    assert (H2 : 2 <= 2 ^ n)
      by (change 2 with (2 ^ 1) at 1; apply Z.pow_le_mono_r; lia).
    apply bitstring_nonzero; [lia|].
    apply pick_impossible; auto. apply Hrng. }
  exists circ, (get_counts (sample rng circ shots)).
  split; [apply build_then_circuit; lia|].
  split; [exact Hp|]. split; [exact Hsample|]. split.
  - rewrite run_total by lia. fold circ. unfold simulator.
    replace (shots <=? 0) with false by lia. reflexivity.
  - intros Hin. apply Hsample. now apply get_counts_keys.
Qed.

Lemma balanced_never_all_zero_witness :
  exists circ counts,
    (oracle <- build_oracle_from_function (total parity) 3 ;;
     deutsch_jozsa_circuit oracle) = inr circ /\
    (outcome_probability circ 0%Z == 0)%Q /\
    ~ In (all_zero 3) (sample sevenths circ 1024) /\
    run_deutsch_jozsa (simulator sevenths) (total parity) 3 1024 = inr counts /\
    ~ In (all_zero 3) (map fst counts).
Proof.
  apply (balanced_never_all_zero parity 3 sevenths 1024).
  - lia.
  - reflexivity.
  - lia.
  - apply sevenths_uniform.
Defined.

(** X10.  For [n >= 1] the all-zero register value is certain exactly
    when [g] has the same residue modulo 2 on all of [0, 2^n): any
    function that is not constant modulo 2 leaves some probability to
    another outcome. *)
Theorem certain_iff_constant (g : Z -> Z) (n : Z) :
  1 <= n ->
  exists circ,
    (oracle <- build_oracle_from_function (total g) n ;;
     deutsch_jozsa_circuit oracle) = inr circ /\
    ((outcome_probability circ 0%Z == 1)%Q <->
     (forall x, 0 <= x < 2 ^ n -> g x mod 2 = 0) \/
     (forall x, 0 <= x < 2 ^ n -> g x mod 2 = 1)).
Proof.
  intros Hn. exists (dj_layout n (oracle_gates g n (range (2 ^ n)))).
  split; [apply build_then_circuit; lia|].
  rewrite all_zero_probability by lia.
  assert (Hp : 0 < 2 ^ n) by (apply Z.pow_pos_nonneg; lia).
  assert (H4 : 4 ^ n = 2 ^ n * 2 ^ n)
    by (change 4 with (2 * 2); apply Z.pow_mul_l).
  pose proof (phase_sum_odd_inputs g n ltac:(lia)) as HS.
  pose proof (odd_inputs_bound g n ltac:(lia)) as Hm.
  assert (Hlen : Z.of_nat (List.length (range (2 ^ n))) = 2 ^ n)
    by (rewrite range_length; lia).
  unfold Qeq. cbn [Qnum Qden]. rewrite Z2Pos.id by lia.
  rewrite H4, HS. split.
  - intros Heq.
    assert (Hc : Z.of_nat (List.length (odd_inputs g n)) = 0 \/
                 Z.of_nat (List.length (odd_inputs g n)) = 2 ^ n) by nia.
    destruct Hc as [H0|HK].
    + left. intros x Hx.
      assert (Hf : (g x mod 2 =? 1) = false).
      { apply (filter_none (fun y => g y mod 2 =? 1) (range (2 ^ n)));
          [|now apply In_range].
        unfold odd_inputs in H0. lia. }
      pose proof (Z.mod_pos_bound (g x) 2 ltac:(lia)). lia.
    + right. intros x Hx. apply Z.eqb_eq.
      apply (filter_all (fun y => g y mod 2 =? 1) (range (2 ^ n)));
        [|now apply In_range].
      unfold odd_inputs in HK. lia.
  - intros [Heven|Hodd].
    + assert (H0 : List.length (odd_inputs g n) = 0%nat).
      { apply filter_length_none. intros x Hx. apply In_range in Hx.
        rewrite (Heven x Hx). reflexivity. }
      rewrite H0. cbn [Z.of_nat]. ring.
    + assert (HK : List.length (odd_inputs g n) = List.length (range (2 ^ n))).
      { apply filter_length_all. intros x Hx. apply In_range in Hx.
        rewrite (Hodd x Hx). reflexivity. }
      rewrite HK, Hlen. ring.
Qed.

Lemma certain_iff_constant_witness :
  exists circ,
    (oracle <- build_oracle_from_function (total two_of_eight) 3 ;;
     deutsch_jozsa_circuit oracle) = inr circ /\
    ((outcome_probability circ 0%Z == 1)%Q <->
     (forall x, 0 <= x < 2 ^ 3 -> two_of_eight x mod 2 = 0) \/
     (forall x, 0 <= x < 2 ^ 3 -> two_of_eight x mod 2 = 1)).
Proof. apply (certain_iff_constant two_of_eight 3). lia. Defined.

(** X11.  If [f] raises on some input of [0, 2^n) and returned on all
    smaller ones, [run_deutsch_jozsa] raises that same exception for
    every backend and every shot count: the backend is not consulted. *)
Theorem run_propagates_first_failure (backend : Backend) (f : Z -> result Z)
        (n shots x : Z) (e : PyExn) :
  0 <= n -> 0 <= x < 2 ^ n -> f x = inl e ->
  (forall y, 0 <= y < x -> exists v, f y = inr v) ->
  run_deutsch_jozsa backend f n shots = inl e.
Proof.
  intros Hn Hx Hf Hlow. unfold run_deutsch_jozsa.
  rewrite build_oracle_nonneg by assumption.
  assert (Hcase : 1 <= n \/ x = 0).
  { destruct (Z.eq_dec n 0) as [Hz|Hnz]; [right|left; lia].
    rewrite Hz in Hx. change (2 ^ 0) with 1 in Hx. lia. }
  now rewrite (oracle_loop_raises f n (2 ^ n) x e).
Qed.

Lemma run_propagates_first_failure_witness :
  run_deutsch_jozsa (fun _ _ => inr [])
    (fun z => if z =? 2 then inl (Raised 7) else inr 1) 2 1024 =
  inl (Raised 7).
Proof.
  apply (run_propagates_first_failure (fun _ _ => inr [])
           (fun z => if z =? 2 then inl (Raised 7) else inr 1) 2 1024 2).
  - lia.
  - change (2 ^ 2) with 4. lia.
  - reflexivity.
  - intros y Hy. exists 1.
    replace (y =? 2) with false by lia. reflexivity.
Defined.

(** X12.  For a total [g] and [n >= 1], [run_deutsch_jozsa] returns what
    the backend answers for the unchanged shot count and the circuit
    with [n + 1] qubits, [n] classical bits and the instructions: X on
    the ancilla, Hadamards on all qubits, the oracle's gates, Hadamards
    on the input qubits, one measurement of the input qubits. *)
Theorem run_reaches_backend (backend : Backend) (g : Z -> Z) (n shots : Z) :
  1 <= n ->
  run_deutsch_jozsa backend (total g) n shots =
  backend (mkCircuit (n + 1) n
             ([XGate n] ++ map HGate (range (n + 1))
              ++ oracle_gates g n (range (2 ^ n))
              ++ map HGate (range n) ++ [Measure (range n) (range n)]))
          shots.
Proof. intros Hn. apply run_total. lia. Qed.

Lemma run_reaches_backend_witness :
  run_deutsch_jozsa (simulator sevenths) (total f_constant) 3 1024 =
  simulator sevenths
    (mkCircuit (3 + 1) 3
       ([XGate 3] ++ map HGate (range (3 + 1))
        ++ oracle_gates f_constant 3 (range (2 ^ 3))
        ++ map HGate (range 3) ++ [Measure (range 3) (range 3)]))
    1024.
Proof. apply (run_reaches_backend (simulator sevenths) f_constant 3 1024). lia. Defined.

(** X13.  The synthesis calls [f] on [0, 2^n) only: two functions that
    agree there, in value or in the exception they raise, give the same
    result, whatever they do elsewhere. *)
Theorem oracle_depends_on_domain_only (f f' : Z -> result Z) (n : Z) :
  (forall x, 0 <= x < 2 ^ n -> f x = f' x) ->
  build_oracle_from_function f n = build_oracle_from_function f' n.
Proof.
  intros Hext. unfold build_oracle_from_function.
  destruct (new_circuit (n + 1) 0) as [e|qc]; [reflexivity|]. cbn [bind].
  unfold range_pow2. destruct (n <? 0); [reflexivity|]. cbn [bind ret].
  apply oracle_loop_ext. intros x Hx. apply Hext. now apply In_range.
Qed.

Lemma oracle_depends_on_domain_only_witness :
  build_oracle_from_function (total parity) 2 =
  build_oracle_from_function
    (fun x => if x <? 4 then inr (parity x) else inl (Raised 1)) 2.
Proof.
  apply (oracle_depends_on_domain_only (total parity)
           (fun x => if x <? 4 then inr (parity x) else inl (Raised 1)) 2).
  intros x Hx. change (2 ^ 2) with 4 in Hx.
  replace (x <? 4) with true by lia. reflexivity.
Defined.

(** X14.  The pipeline measures the input qubits only: the weight of a
    register value [b] is the sum of the squared amplitudes of the two
    basis states with input register [b], ancilla 0 and ancilla 1. *)
Theorem measurement_sums_out_ancilla (g : Z -> Z) (n b : Z) :
  1 <= n -> 0 <= b < 2 ^ n ->
  exists circ,
    (oracle <- build_oracle_from_function (total g) n ;;
     deutsch_jozsa_circuit oracle) = inr circ /\
    outcome_weight (measured (data circ)) (final_state circ) b =
    amplitude_at (final_state circ) b * amplitude_at (final_state circ) b +
    amplitude_at (final_state circ) (b + 2 ^ n) *
    amplitude_at (final_state circ) (b + 2 ^ n).
Proof.
  intros Hn Hb. exists (dj_layout n (oracle_gates g n (range (2 ^ n)))).
  split; [apply build_then_circuit; lia|].
  rewrite measured_dj_layout by apply oracle_gates_classical.
  destruct (final_state_tabulated g n ltac:(lia)) as (a & k & ->).
  rewrite outcome_weight_inputs by lia.
  assert (Hpow : 2 ^ (n + 1) = 2 ^ n + 2 ^ n) by (rewrite Z.pow_add_r; lia).
  now rewrite !amplitude_at_tabulate by lia.
Qed.

Lemma measurement_sums_out_ancilla_witness :
  exists circ,
    (oracle <- build_oracle_from_function (total parity) 2 ;;
     deutsch_jozsa_circuit oracle) = inr circ /\
    outcome_weight (measured (data circ)) (final_state circ) 3 =
    amplitude_at (final_state circ) 3 * amplitude_at (final_state circ) 3 +
    amplitude_at (final_state circ) (3 + 2 ^ 2) *
    amplitude_at (final_state circ) (3 + 2 ^ 2).
Proof.
  apply (measurement_sums_out_ancilla parity 2 3).
  - lia.
  - change (2 ^ 2) with 4. lia.
Defined.

(* ----------------------------------------------------------------- *)
(** *** The balanced function of the demonstration *)

Lemma filter_map_length {A B : Type} (p : B -> bool) (h : A -> B) (l : list A) :
  List.length (filter p (map h l)) = List.length (filter (fun a => p (h a)) l).
Proof.
  induction l as [|a l IH]; simpl; [reflexivity|].
  destruct (p (h a)); simpl; now rewrite IH.
Qed.

(** The bits of [x] above its highest 1 add nothing to the count. *)
Lemma ones_count_ext (x m : Z) :
  0 <= x < 2 ^ m ->
  filter (Z.testbit x) (range (Z.log2 x + 1)) = filter (Z.testbit x) (range m).
Proof.
  intros Hx. destruct (Z_lt_dec m 0) as [Hneg|Hm].
  { rewrite Z.pow_neg_r in Hx by lia. lia. }
  destruct (Z.eq_dec x 0) as [->|Hne].
  - change (Z.log2 0 + 1) with 1. change (range 1) with [0]. simpl.
    symmetry. induction (range m) as [|j l IH]; simpl; [reflexivity|].
    now rewrite Z.testbit_0_l.
  - assert (Hlog : Z.log2 x < m) by (apply Z.log2_lt_pow2; lia).
    pose proof (Z.log2_nonneg x) as Hl0.
    assert (Hnil : forall l,
               Forall (fun j => 0 <= j) l ->
               filter (Z.testbit x) (map (Z.add (Z.log2 x + 1)) l) = []).
    { induction 1 as [|j l Hj _ IH]; [reflexivity|].
      cbn [map filter]. rewrite Z.bits_above_log2 by lia. exact IH. }
    replace (range m)
      with (range (Z.log2 x + 1 + (m - (Z.log2 x + 1)))) by (f_equal; lia).
    rewrite (range_app (Z.log2 x + 1) (m - (Z.log2 x + 1))) by lia.
    rewrite filter_app, Hnil.
    + now rewrite app_nil_r.
    + apply Forall_forall. intros j Hj. apply In_range in Hj. lia.
Qed.

Lemma parity_bits (x m : Z) :
  0 <= x < 2 ^ m ->
  parity x = Z.of_nat (List.length (filter (Z.testbit x) (range m))) mod 2.
Proof. intros Hx. unfold parity. now rewrite (ones_count_ext x m). Qed.

Lemma filter_ext_range (p q : Z -> bool) (k : Z) :
  (forall j, 0 <= j < k -> p j = q j) -> filter p (range k) = filter q (range k).
Proof.
  intros H. apply filter_ext_in. intros j Hj. apply H. now apply In_range.
Qed.

(** Setting the bit above an [n]-bit input changes its parity. *)
Lemma parity_upper (n x : Z) :
  0 <= n -> 0 <= x < 2 ^ n -> parity (2 ^ n + x) = 1 - parity x.
Proof.
  intros Hn Hx.
  assert (Hpow : 2 ^ (n + 1) = 2 ^ n + 2 ^ n) by (rewrite Z.pow_add_r; lia).
  rewrite (parity_bits (2 ^ n + x) (n + 1)), (parity_bits x n) by lia.
  rewrite range_succ, filter_app by lia.
  replace (2 ^ n + x) with (index_of n x 1) by (unfold index_of; lia).
  cbn [filter]. rewrite index_of_ancilla by lia. cbn [Z.eqb Pos.eqb].
  rewrite (filter_ext_range (Z.testbit (index_of n x 1)) (Z.testbit x)).
  - rewrite length_app. cbn [List.length].
    set (c := List.length (filter (Z.testbit x) (range n))).
    replace (Z.of_nat (c + 1)) with (Z.of_nat c + 1) by lia.
    pose proof (Z.mod_pos_bound (Z.of_nat c) 2 ltac:(lia)).
    rewrite Z.add_mod by lia.
    assert (Hc : Z.of_nat c mod 2 = 0 \/ Z.of_nat c mod 2 = 1) by lia.
    destruct Hc as [-> | ->]; reflexivity.
  - intros j Hj.
    rewrite <- (Z.mod_pow2_bits_low (index_of n x 1) n j) by lia.
    now rewrite index_of_mod by lia.
Qed.

Lemma parity_bit_value (x : Z) : parity x = 0 \/ parity x = 1.
Proof.
  unfold parity.
  pose proof (Z.mod_pos_bound
                (Z.of_nat (List.length
                   (filter (Z.testbit x) (range (Z.log2 x + 1))))) 2
                ltac:(lia)).
  lia.
Qed.

(** X15.  The function [f_balanced] of the demonstration (the parity of
    the bits of [x]) is balanced on [n] input bits for every [n >= 1]:
    it is odd on exactly half of [0, 2^n). *)
Theorem parity_is_balanced (n : Z) : 1 <= n -> balanced parity n.
Proof.
  intros Hn. unfold balanced, odd_inputs.
  replace n with ((n - 1) + 1) by lia.
  set (m := n - 1). assert (Hm : 0 <= m) by lia.
  assert (Hp : 0 < 2 ^ m) by (apply Z.pow_pos_nonneg; lia).
  replace (2 ^ (m + 1)) with (2 ^ m + 2 ^ m) by (rewrite Z.pow_add_r; lia).
  rewrite range_app, filter_app, length_app, filter_map_length by lia.
  rewrite (filter_ext_in
             (fun a => parity (2 ^ m + a) mod 2 =? 1)
             (fun a => negb (parity a mod 2 =? 1))).
  - pose proof (filter_length (fun a => parity a mod 2 =? 1) (range (2 ^ m)))
      as Hlen.
    rewrite range_length in Hlen. lia.
  - intros a Ha. apply In_range in Ha. rewrite parity_upper by lia.
    destruct (parity_bit_value a) as [-> | ->]; reflexivity.
Qed.

Lemma parity_is_balanced_witness : balanced parity 3.
Proof. apply (parity_is_balanced 3). lia. Defined.
